(** * The update dispatcher of pyrogram (pyrogram/dispatcher.py)

    A shallow embedding of [Dispatcher]: the handler registry
    ([add_handler], [remove_handler], [remove_error_handler]), the
    classifier table ([update_parsers]), the dispatch loop of
    [handler_worker] with its error routing, [start] and [stop], and the
    lock protocol between the worker tasks and the registering tasks.

    Python objects are compared by identity, exceptions are the classes
    deriving from [Exception], and what handlers and parsers do is a
    function of an abstract world [W] that the dispatcher itself never
    inspects.  A worker records what it does in a trace of events.  The
    registry is fixed during the dispatch of one packet: a registering call
    made from a callback only creates a task, and that task waits for the
    worker's lock ([Module Locks]). *)

From Stdlib Require Import List ZArith Bool Arith Lia Sorted.
Import ListNotations.

Set Implicit Arguments.

(** ** Exceptions *)

(** The exception classes that occur in the dispatcher, with a family of
    user classes.  [StopPropagation] and [ContinuePropagation] derive from
    [StopAsyncIteration]; everything derives from [Exception]. *)
Inductive ExnClass : Type :=
| Exception
| StopAsyncIteration
| StopPropagation
| ContinuePropagation
| LookupError
| IndexError
| KeyError
| AttributeError
| ValueError
| TypeError
| RuntimeError
| UserError (n : nat).

Definition ExnClass_eq_dec (a b : ExnClass) : {a = b} + {a <> b}.
Proof. decide equality. apply Nat.eq_dec. Defined.

Definition class_eqb (a b : ExnClass) : bool :=
  if ExnClass_eq_dec a b then true else false.

(** The direct base class (single inheritance). *)
Definition base (c : ExnClass) : option ExnClass :=
  match c with
  | Exception => None
  | StopPropagation | ContinuePropagation => Some StopAsyncIteration
  | IndexError | KeyError => Some LookupError
  | _ => Some Exception
  end.

Fixpoint issubclass_upto (depth : nat) (c d : ExnClass) : bool :=
  class_eqb c d ||
  match depth with
  | O => false
  | S depth' =>
      match base c with
      | Some p => issubclass_upto depth' p d
      | None => false
      end
  end.

(** The hierarchy above has depth two. *)
Definition issubclass (c d : ExnClass) : bool := issubclass_upto 2 c d.

(** A raised exception is represented by its class. *)
Definition exn : Type := ExnClass.

(** [isinstance(e, cls)]. *)
Definition isinstance_exn (e : exn) (cls : ExnClass) : bool := issubclass e cls.

(** The result of running Python code: a value or a raised exception. *)
Inductive Result (A : Type) : Type :=
| Ok (a : A)
| Raise (e : exn).
Arguments Ok {A} a.
Arguments Raise {A} e.

(** ** Raw updates and the classifier table *)

(** The classes of [pyrogram.raw.types] the dispatcher imports, and all the
    others. *)
Inductive RawType : Type :=
| UpdateNewMessage | UpdateNewChannelMessage | UpdateNewScheduledMessage
| UpdateEditMessage | UpdateEditChannelMessage
| UpdateDeleteMessages | UpdateDeleteChannelMessages
| UpdateBotCallbackQuery | UpdateInlineBotCallbackQuery
| UpdateUserStatus | UpdateBotInlineQuery | UpdateMessagePoll
| UpdateBotInlineSend | UpdateChatParticipant | UpdateChannelParticipant
| UpdateBotChatInviteRequester
| UpdateOther (n : nat).

Definition RawType_eq_dec (a b : RawType) : {a = b} + {a <> b}.
Proof. decide equality. apply Nat.eq_dec. Defined.

(** A raw update: its class and its (opaque) content. *)
Record Update : Type := { utype : RawType; ubody : nat }.

(** The [users] and [chats] maps that come with an update. *)
Definition EntityMap : Type := list (Z * nat).

(** A packet of the queue: [(update, users, chats)]. *)
Definition Packet : Type := (Update * EntityMap * EntityMap)%type.

(** The handler classes of [pyrogram.handlers]. *)
Inductive HandlerClass : Type :=
| CallbackQueryHandler | MessageHandler | EditedMessageHandler
| DeletedMessagesHandler | UserStatusHandler | RawUpdateHandler
| InlineQueryHandler | PollHandler | ChosenInlineResultHandler
| ChatMemberUpdatedHandler | ChatJoinRequestHandler | ErrorHandler.

Definition HandlerClass_eq_dec (a b : HandlerClass) : {a = b} + {a <> b}.
Proof. decide equality. Defined.

(** The second component a parser returns: a handler class, or
    [type(None)] when there is no parser. *)
Inductive HandlerType : Type :=
| TClass (c : HandlerClass)
| TNoneType.

(** The parser closures defined in [__init__]. *)
Inductive Parser : Type :=
| message_parser | edited_message_parser | deleted_messages_parser
| callback_query_parser | user_status_parser | inline_query_parser
| poll_parser | chosen_inline_result_parser | chat_member_updated_parser
| chat_join_request_parser.

Definition NEW_MESSAGE_UPDATES := [UpdateNewMessage; UpdateNewChannelMessage; UpdateNewScheduledMessage].
Definition EDIT_MESSAGE_UPDATES := [UpdateEditMessage; UpdateEditChannelMessage].
Definition DELETE_MESSAGES_UPDATES := [UpdateDeleteMessages; UpdateDeleteChannelMessages].
Definition CALLBACK_QUERY_UPDATES := [UpdateBotCallbackQuery; UpdateInlineBotCallbackQuery].
Definition CHAT_MEMBER_UPDATES := [UpdateChatParticipant; UpdateChannelParticipant].
Definition USER_STATUS_UPDATES := [UpdateUserStatus].
Definition BOT_INLINE_QUERY_UPDATES := [UpdateBotInlineQuery].
Definition POLL_UPDATES := [UpdateMessagePoll].
Definition CHOSEN_INLINE_RESULT_UPDATES := [UpdateBotInlineSend].
Definition CHAT_JOIN_REQUEST_UPDATES := [UpdateBotChatInviteRequester].

(** [self.update_parsers] as first written: keyed by tuples of classes. *)
Definition update_parsers_by_tuple : list (list RawType * Parser) :=
  [ (NEW_MESSAGE_UPDATES, message_parser);
    (EDIT_MESSAGE_UPDATES, edited_message_parser);
    (DELETE_MESSAGES_UPDATES, deleted_messages_parser);
    (CALLBACK_QUERY_UPDATES, callback_query_parser);
    (USER_STATUS_UPDATES, user_status_parser);
    (BOT_INLINE_QUERY_UPDATES, inline_query_parser);
    (POLL_UPDATES, poll_parser);
    (CHOSEN_INLINE_RESULT_UPDATES, chosen_inline_result_parser);
    (CHAT_MEMBER_UPDATES, chat_member_updated_parser);
    (CHAT_JOIN_REQUEST_UPDATES, chat_join_request_parser) ].

(** [{key: value for key_tuple, value in ... for key in key_tuple}]. *)
Definition update_parsers : list (RawType * Parser) :=
  flat_map (fun kv => map (fun key => (key, snd kv)) (fst kv))
           update_parsers_by_tuple.

(** [self.update_parsers.get(type(update), None)]. *)
Fixpoint dict_get_parser (table : list (RawType * Parser)) (t : RawType)
  : option Parser :=
  match table with
  | [] => None
  | (k, v) :: rest =>
      if RawType_eq_dec k t then Some v else dict_get_parser rest t
  end.

Definition update_parsers_get (t : RawType) : option Parser :=
  dict_get_parser update_parsers t.

(** The handler class each parser returns with the parsed object. *)
Definition parser_handler_class (p : Parser) : HandlerClass :=
  match p with
  | message_parser => MessageHandler
  | edited_message_parser => EditedMessageHandler
  | deleted_messages_parser => DeletedMessagesHandler
  | callback_query_parser => CallbackQueryHandler
  | user_status_parser => UserStatusHandler
  | inline_query_parser => InlineQueryHandler
  | poll_parser => PollHandler
  | chosen_inline_result_parser => ChosenInlineResultHandler
  | chat_member_updated_parser => ChatMemberUpdatedHandler
  | chat_join_request_parser => ChatJoinRequestHandler
  end.

(** ** Handlers *)

(** A parsed update is an opaque object; [None] is Python's [None]. *)
Definition Parsed : Type := nat.

(** The positional arguments a callback receives after [client]. *)
Inductive Arg : Type :=
| AErr (e : exn)
| AParsed (p : option Parsed)
| AUpdate (u : Update)
| AEntities (m : EntityMap).

(** [ErrorHandler.errors]: [None], one class, or a tuple of classes
    (a list given to the constructor is turned into a tuple). *)
Inductive Errors : Type :=
| ErrorsNone
| ErrorsClass (c : ExnClass)
| ErrorsTuple (cs : list ExnClass).

Section Model.

Context {W : Type}.

(** A handler object.  [hid] is the identity of the object: handlers define
    no [__eq__], so [==], [list.index], [list.remove] and [in] compare by
    identity.  [check] and [callback] act on the world. *)
Record Handler : Type := {
  hid : nat;
  hclass : HandlerClass;
  errors : Errors;
  iscoroutinefunction : bool;
  check : option Parsed -> W -> Result bool * W;
  callback : list Arg -> W -> Result unit * W
}.

Definition handler_eqb (a b : Handler) : bool := Nat.eqb (hid a) (hid b).

(** [list.index(x)]: the first position holding [x]. *)
Fixpoint list_index (x : Handler) (l : list Handler) : option nat :=
  match l with
  | [] => None
  | y :: rest =>
      if handler_eqb y x then Some O
      else option_map S (list_index x rest)
  end.

(** [list.pop(i)] for an index in range: the list without position [i]. *)
Fixpoint list_pop {A : Type} (i : nat) (l : list A) : list A :=
  match l, i with
  | [], _ => []
  | _ :: rest, O => rest
  | y :: rest, S j => y :: list_pop j rest
  end.

(** [list.remove(x)]: drops the first element equal to [x]; [None] stands
    for the [ValueError] raised when there is none. *)
Fixpoint list_remove (x : Handler) (l : list Handler) : option (list Handler) :=
  match l with
  | [] => None
  | y :: rest =>
      if handler_eqb y x then Some rest
      else option_map (cons y) (list_remove x rest)
  end.

(** ** The dispatcher object *)

(** [self.client]: the configuration the dispatcher reads, and the parsing
    functions of [pyrogram.types] and [pyrogram.utils] the parsers call. *)
Record Client : Type := {
  no_updates : bool;
  workers : nat;
  parse_object : Parser -> Update -> EntityMap -> EntityMap -> W
                 -> Result (option Parsed) * W
}.

(** The fields set in [__init__].  [groups] is an [OrderedDict]: an
    association list in iteration order, keys unique.  A lock is its
    [locked] flag; a worker task is named by the index of its lock. *)
Record Dispatcher : Type := {
  client : Client;
  handler_worker_tasks : list nat;
  locks_list : list bool;
  updates_queue : list (option Packet);
  groups : list (Z * list Handler);
  error_handlers : list Handler;
  error_handler_coros : list bool;
  global_error_handler : option Handler;
  global_error_handler_coro : option bool
}.

(** [Dispatcher(client)]. *)
Definition init (c : Client) : Dispatcher :=
  {| client := c;
     handler_worker_tasks := [];
     locks_list := [];
     updates_queue := [];
     groups := [];
     error_handlers := [];
     error_handler_coros := [];
     global_error_handler := None;
     global_error_handler_coro := None |}.

Definition set_groups (d : Dispatcher) (g : list (Z * list Handler)) : Dispatcher :=
  {| client := client d;
     handler_worker_tasks := handler_worker_tasks d;
     locks_list := locks_list d;
     updates_queue := updates_queue d;
     groups := g;
     error_handlers := error_handlers d;
     error_handler_coros := error_handler_coros d;
     global_error_handler := global_error_handler d;
     global_error_handler_coro := global_error_handler_coro d |}.

Definition set_error_handlers (d : Dispatcher) (hs : list Handler) : Dispatcher :=
  {| client := client d;
     handler_worker_tasks := handler_worker_tasks d;
     locks_list := locks_list d;
     updates_queue := updates_queue d;
     groups := groups d;
     error_handlers := hs;
     error_handler_coros := error_handler_coros d;
     global_error_handler := global_error_handler d;
     global_error_handler_coro := global_error_handler_coro d |}.

Definition set_error_handler_coros (d : Dispatcher) (cs : list bool) : Dispatcher :=
  {| client := client d;
     handler_worker_tasks := handler_worker_tasks d;
     locks_list := locks_list d;
     updates_queue := updates_queue d;
     groups := groups d;
     error_handlers := error_handlers d;
     error_handler_coros := cs;
     global_error_handler := global_error_handler d;
     global_error_handler_coro := global_error_handler_coro d |}.

Definition set_global (d : Dispatcher) (h : option Handler) (c : option bool)
  : Dispatcher :=
  {| client := client d;
     handler_worker_tasks := handler_worker_tasks d;
     locks_list := locks_list d;
     updates_queue := updates_queue d;
     groups := groups d;
     error_handlers := error_handlers d;
     error_handler_coros := error_handler_coros d;
     global_error_handler := h;
     global_error_handler_coro := c |}.

Definition set_locks (d : Dispatcher) (l : list bool) : Dispatcher :=
  {| client := client d;
     handler_worker_tasks := handler_worker_tasks d;
     locks_list := l;
     updates_queue := updates_queue d;
     groups := groups d;
     error_handlers := error_handlers d;
     error_handler_coros := error_handler_coros d;
     global_error_handler := global_error_handler d;
     global_error_handler_coro := global_error_handler_coro d |}.

Definition set_tasks (d : Dispatcher) (t : list nat) : Dispatcher :=
  {| client := client d;
     handler_worker_tasks := t;
     locks_list := locks_list d;
     updates_queue := updates_queue d;
     groups := groups d;
     error_handlers := error_handlers d;
     error_handler_coros := error_handler_coros d;
     global_error_handler := global_error_handler d;
     global_error_handler_coro := global_error_handler_coro d |}.

Definition set_queue (d : Dispatcher) (q : list (option Packet)) : Dispatcher :=
  {| client := client d;
     handler_worker_tasks := handler_worker_tasks d;
     locks_list := locks_list d;
     updates_queue := q;
     groups := groups d;
     error_handlers := error_handlers d;
     error_handler_coros := error_handler_coros d;
     global_error_handler := global_error_handler d;
     global_error_handler_coro := global_error_handler_coro d |}.

(** ** The ordered dictionary [self.groups] *)

(** [group in self.groups]. *)
Definition dict_contains (group : Z) (g : list (Z * list Handler)) : bool :=
  existsb (fun kv => Z.eqb (fst kv) group) g.

(** [self.groups[group]] ([None] for the [KeyError]). *)
Fixpoint dict_get (group : Z) (g : list (Z * list Handler)) : option (list Handler) :=
  match g with
  | [] => None
  | (k, v) :: rest => if Z.eqb k group then Some v else dict_get group rest
  end.

(** [self.groups[group] = v]: replaces the value of an existing key in
    place, or adds the key at the end. *)
Fixpoint dict_set (group : Z) (v : list Handler) (g : list (Z * list Handler))
  : list (Z * list Handler) :=
  match g with
  | [] => [(group, v)]
  | (k, w) :: rest =>
      if Z.eqb k group then (k, v) :: rest
      else (k, w) :: dict_set group v rest
  end.

(** [sorted(self.groups.items())]: the keys of a dictionary are distinct,
    so the items are ordered by key alone; the sort is stable. *)
Fixpoint insert_item (kv : Z * list Handler) (l : list (Z * list Handler))
  : list (Z * list Handler) :=
  match l with
  | [] => [kv]
  | kw :: rest =>
      if Z.leb (fst kv) (fst kw) then kv :: kw :: rest
      else kw :: insert_item kv rest
  end.

Definition sorted_items (g : list (Z * list Handler)) : list (Z * list Handler) :=
  fold_right insert_item [] g.

(** ** Registry mutations

    Each mutation is a task [fn()]: it acquires every lock of
    [self.locks_list], runs its [try] block, and releases every lock in
    [finally].  The functions below are the [try] blocks; [with_all_locks]
    is the task around them, run from a state in which the locks are free
    (a task that finds a lock taken waits; see [Module Locks]). *)

Definition acquire_all (d : Dispatcher) : Dispatcher :=
  set_locks d (map (fun _ => true) (locks_list d)).

Definition release_all (d : Dispatcher) : Dispatcher :=
  set_locks d (map (fun _ => false) (locks_list d)).

Definition with_all_locks (body : Dispatcher -> Result unit * Dispatcher)
           (d : Dispatcher) : Result unit * Dispatcher :=
  let (r, d') := body (acquire_all d) in (r, release_all d').

(** The group a key is bound to, the empty list when it has none. *)
Definition group_of (group : Z) (g : list (Z * list Handler)) : list Handler :=
  match dict_get group g with
  | Some l => l
  | None => []
  end.

(** The groups after the first [if] of [add_handler]. *)
Definition ensure_group (group : Z) (g : list (Z * list Handler))
  : list (Z * list Handler) :=
  if dict_contains group g then g else sorted_items (dict_set group [] g).

Definition is_error_handler (h : Handler) : bool :=
  if HandlerClass_eq_dec (hclass h) ErrorHandler then true else false.

(** The [try] block of [add_handler]. *)
Definition add_handler_body (handler : Handler) (group : Z) (d : Dispatcher)
  : Result unit * Dispatcher :=
  let d1 :=
    if dict_contains group (groups d) then d
    else set_groups d (sorted_items (dict_set group [] (groups d))) in
  let d2 :=
    if is_error_handler handler then
      match errors handler with
      | ErrorsNone =>
          set_global d1 (Some handler) (Some (iscoroutinefunction handler))
      | _ =>
          set_error_handler_coros
            (set_error_handlers d1 (error_handlers d1 ++ [handler]))
            (error_handler_coros d1 ++ [iscoroutinefunction handler])
      end
    else d1 in
  match dict_get group (groups d2) with
  | Some l => (Ok tt, set_groups d2 (dict_set group (l ++ [handler]) (groups d2)))
  | None => (Raise KeyError, d2)
  end.

Definition add_handler (handler : Handler) (group : Z) :=
  with_all_locks (add_handler_body handler group).

(** The [try] block of [remove_handler]. *)
Definition remove_handler_body (handler : Handler) (group : Z) (d : Dispatcher)
  : Result unit * Dispatcher :=
  if negb (dict_contains group (groups d)) then (Raise ValueError, d)
  else
    match dict_get group (groups d) with
    | None => (Raise KeyError, d)
    | Some l =>
        match list_remove handler l with
        | None => (Raise ValueError, d)
        | Some l' => (Ok tt, set_groups d (dict_set group l' (groups d)))
        end
    end.

Definition remove_handler (handler : Handler) (group : Z) :=
  with_all_locks (remove_handler_body handler group).

(** [self.error_handlers_coros] and [self.error_handlers_coro]: the
    dispatcher has no attribute of either name ([__init__] creates
    [error_handler_coros]), so reading them raises [AttributeError]. *)
Definition error_handlers_coros (d : Dispatcher) : Result (list bool) :=
  Raise AttributeError.

Definition error_handlers_coro (d : Dispatcher) : Result (list bool) :=
  Raise AttributeError.

(** [error in err.errors]: membership in a tuple; a class or [None] is not
    iterable. *)
Definition errors_contains (error : ExnClass) (errs : Errors) : Result bool :=
  match errs with
  | ErrorsTuple cs => Ok (existsb (class_eqb error) cs)
  | ErrorsClass _ | ErrorsNone => Raise TypeError
  end.

(** The loop [for index, err in enumerate(self.error_handlers)] of
    [remove_error_handler]; [todo] is what the iterator has still to
    yield.  After a [pop(index)] the iterator, at position [index + 1] of
    the shortened list, skips one element. *)
Fixpoint remove_error_loop (error : ExnClass) (index : nat)
         (todo : list Handler) (d : Dispatcher) : Result unit * Dispatcher :=
  match todo with
  | [] => (Ok tt, d)
  | err :: rest =>
      match errors_contains error (errors err) with
      | Raise e => (Raise e, d)
      | Ok false => remove_error_loop error (S index) rest d
      | Ok true =>
          let d1 := set_error_handlers d (list_pop index (error_handlers d)) in
          match error_handlers_coro d1 with
          | Raise e => (Raise e, d1)
          | Ok _ =>
              match rest with
              | [] => (Ok tt, d1)
              | _ :: rest' => remove_error_loop error (S index) rest' d1
              end
          end
      end
  end.

(** The [try] block of [remove_error_handler].  A handler object and an
    exception class are truthy; [None] is not. *)
Definition remove_error_handler_body (handler : option Handler)
           (error : option ExnClass) (d : Dispatcher) : Result unit * Dispatcher :=
  match handler, error with
  | Some h, _ =>
      match list_index h (error_handlers d) with
      | None => (Raise ValueError, d)
      | Some index =>
          let d1 := set_error_handlers d (list_pop index (error_handlers d)) in
          match error_handlers_coros d1 with
          | Raise e => (Raise e, d1)
          | Ok _ => (Ok tt, d1)
          end
      end
  | None, Some err => remove_error_loop err O (error_handlers d) d
  | None, None => (Ok tt, set_global d None None)
  end.

Definition remove_error_handler (handler : option Handler) (error : option ExnClass) :=
  with_all_locks (remove_error_handler_body handler error).

(** ** Dispatch *)

(** How a callback is run: awaited directly, or in the executor. *)
Inductive CallMode : Type := Awaited | InExecutor.

(** What a worker does, in order.  [EvVisit] marks the start of the
    iteration over one group and carries its key. *)
Inductive Event : Type :=
| EvAcquire (lock : nat)
| EvRelease (lock : nat)
| EvVisit (group : Z)
| EvCheck (h : Handler) (r : Result bool)
| EvCall (h : Handler) (mode : CallMode) (args : list Arg) (r : Result unit)
| EvErrorCall (h : Handler) (mode : CallMode) (args : list Arg) (r : Result unit)
| EvLog (e : exn).

(** Computations that act on the world, may raise, and record events. *)
Definition M (A : Type) : Type := W -> Result A * W * list Event.

Definition ret {A} (a : A) : M A := fun w => (Ok a, w, []).

Definition bind {A B} (m : M A) (f : A -> M B) : M B :=
  fun w =>
    match m w with
    | (Ok a, w1, t1) => let '(r, w2, t2) := f a w1 in (r, w2, t1 ++ t2)
    | (Raise e, w1, t1) => (Raise e, w1, t1)
    end.

Definition raise {A} (e : exn) : M A := fun w => (Raise e, w, []).

(** The result of a [try] body, handed to its [except] clauses. *)
Definition attempt {A} (m : M A) : M (Result A) :=
  fun w => let '(r, w1, t1) := m w in (Ok r, w1, t1).

Definition emit (ev : Event) : M unit := fun w => (Ok tt, w, [ev]).

Definition lift {A} (r : Result A) : M A := fun w => (r, w, []).

Notation "x <- m ;; k" := (bind m (fun x => k))
  (at level 61, m at next level, right associativity).
Notation "m ;;; k" := (bind m (fun _ => k))
  (at level 61, right associativity).

(** What a computation started in world [w] returns, the world it leaves,
    and the events it records. *)
Definition result_of {A} (m : M A) (w : W) : Result A := fst (fst (m w)).
Definition world_after {A} (m : M A) (w : W) : W := snd (fst (m w)).
Definition trace_of {A} (m : M A) (w : W) : list Event := snd (m w).

(** [log.error(e, exc_info=True)]. *)
Definition log_error (e : exn) : M unit := emit (EvLog e).

(** The parser closures: each calls its parsing function and pairs the
    result with a handler class. *)
Definition run_parser (c : Client) (p : Parser) (update : Update)
           (users chats : EntityMap) : M (option Parsed * HandlerType) :=
  fun w =>
    let (r, w1) := parse_object c p update users chats w in
    match r with
    | Ok parsed => (Ok (parsed, TClass (parser_handler_class p)), w1, [])
    | Raise e => (Raise e, w1, [])
    end.

(** [isinstance(handler, handler_type)]: the handler classes do not derive
    from one another, and no handler is an instance of [type(None)]. *)
Definition isinstance_handler (h : Handler) (t : HandlerType) : bool :=
  match t with
  | TClass c => if HandlerClass_eq_dec (hclass h) c then true else false
  | TNoneType => false
  end.

Definition is_raw_update_handler (h : Handler) : bool :=
  if HandlerClass_eq_dec (hclass h) RawUpdateHandler then true else false.

(** [await handler.check(self.client, parsed_update)];
    [ErrorHandler.check] returns [True]. *)
Definition handler_check (h : Handler) (parsed_update : option Parsed) : M bool :=
  fun w =>
    let (r, w1) :=
      if is_error_handler h then (Ok true, w) else check h parsed_update w in
    (r, w1, [EvCheck h r]).

(** [inspect.iscoroutinefunction(handler.callback)] decides how the
    callback is run. *)
Definition mode_of (h : Handler) : CallMode :=
  if iscoroutinefunction h then Awaited else InExecutor.

(** The call of [handler.callback(self.client, *args)], awaited directly
    when the callback is a coroutine function, in the executor otherwise. *)
Definition invoke (h : Handler) (args : list Arg) : M unit :=
  fun w =>
    let (r, w1) := callback h args w in
    (r, w1, [EvCall h (mode_of h) args r]).

(** The call of an error handler's callback with [(client, e, *args)]. *)
Definition invoke_error_handler (h : Handler) (coro : bool) (e : exn)
           (args : list Arg) : M unit :=
  fun w =>
    let (r, w1) := callback h (AErr e :: args) w in
    let mode := if coro then Awaited else InExecutor in
    (r, w1, [EvErrorCall h mode (AErr e :: args) r]).

(** [isinstance(e, error_handler.errors)]. *)
Definition isinstance_errors (e : exn) (errs : Errors) : Result bool :=
  match errs with
  | ErrorsClass c => Ok (isinstance_exn e c)
  | ErrorsTuple cs => Ok (existsb (isinstance_exn e) cs)
  | ErrorsNone => Raise TypeError
  end.

(** [l[i]]. *)
Definition list_getitem {A} (l : list A) (i : nat) : Result A :=
  match nth_error l i with
  | Some a => Ok a
  | None => Raise IndexError
  end.

(** [l.index(x)] as an expression. *)
Definition list_index_or_raise (x : Handler) (l : list Handler) : Result nat :=
  match list_index x l with
  | Some i => Ok i
  | None => Raise ValueError
  end.

(** The loop [for error_handler in self.error_handlers] of the worker;
    the result is the final value of [executed]. *)
Fixpoint route_scoped (d : Dispatcher) (e : exn) (args : list Arg)
         (todo : list Handler) (executed : bool) : M bool :=
  match todo with
  | [] => ret executed
  | error_handler :: rest =>
      matches <- lift (isinstance_errors e (errors error_handler)) ;;
      if matches then
        index <- lift (list_index_or_raise error_handler (error_handlers d)) ;;
        error_handler_coro <- lift (list_getitem (error_handler_coros d) index) ;;
        invoke_error_handler error_handler error_handler_coro e args ;;;
        route_scoped d e args rest true
      else route_scoped d e args rest executed
  end.

(** [self.global_error_handler.callback]: [None] has no such attribute. *)
Definition global_callback_owner (d : Dispatcher) : Result Handler :=
  match global_error_handler d with
  | Some h => Ok h
  | None => Raise AttributeError
  end.

Definition truthy_handler (h : option Handler) : bool :=
  match h with Some _ => true | None => false end.

Definition truthy_flag (b : option bool) : bool :=
  match b with Some true => true | _ => false end.

(** The clause [except Exception as e] around a callback. *)
Definition route_error (d : Dispatcher) (e : exn) (args : list Arg) : M unit :=
  executed <-
    match error_handlers d with
    | [] => ret false
    | _ :: _ => route_scoped d e args (error_handlers d) false
    end ;;
  if negb executed || truthy_handler (global_error_handler d) then
    if truthy_flag (global_error_handler_coro d) then
      h <- lift (global_callback_owner d) ;;
      invoke_error_handler h true e args
    else
      h <- lift (global_callback_owner d) ;;
      invoke_error_handler h false e args
  else log_error e.

(** How one pass of the body of [for handler in group] ends. *)
Inductive Flow : Type := FlowContinue | FlowBreak.

(** The first half of the body of [for handler in group]: the value of
    [args] when the callback is reached; [None] when the pass ends before
    it (by the [continue] after a failed check, or with [args is None]). *)
Definition select_args (update : Update) (users chats : EntityMap)
           (parsed_update : option Parsed) (handler_type : HandlerType)
           (handler : Handler) : M (option (list Arg)) :=
  if isinstance_handler handler handler_type then
    checked <- attempt (handler_check handler parsed_update) ;;
    match checked with
    | Ok true => ret (Some [AParsed parsed_update])
    | Ok false => ret None
    | Raise e =>
        if isinstance_exn e Exception then log_error e ;;; ret None
        else raise e
    end
  else if is_raw_update_handler handler then
    ret (Some [AUpdate update; AEntities users; AEntities chats])
  else ret None.

(** The body of [for handler in group]. *)
Definition handle_one (d : Dispatcher) (update : Update) (users chats : EntityMap)
           (parsed_update : option Parsed) (handler_type : HandlerType)
           (handler : Handler) : M Flow :=
  selected <- select_args update users chats parsed_update handler_type handler ;;
  match selected with
  | None => ret FlowContinue
  | Some args =>
      called <- attempt (invoke handler args) ;;
      match called with
      | Ok _ => ret FlowBreak
      | Raise e =>
          if isinstance_exn e StopPropagation then raise e
          else if isinstance_exn e ContinuePropagation then ret FlowContinue
          else if isinstance_exn e Exception then
            route_error d e args ;;; ret FlowBreak
          else raise e
      end
  end.

(** [for handler in group]. *)
Fixpoint for_handlers (d : Dispatcher) (update : Update) (users chats : EntityMap)
         (parsed_update : option Parsed) (handler_type : HandlerType)
         (group : list Handler) : M unit :=
  match group with
  | [] => ret tt
  | handler :: rest =>
      flow <- handle_one d update users chats parsed_update handler_type handler ;;
      match flow with
      | FlowContinue =>
          for_handlers d update users chats parsed_update handler_type rest
      | FlowBreak => ret tt
      end
  end.

(** [for group in self.groups.values()]. *)
Fixpoint for_groups (d : Dispatcher) (update : Update) (users chats : EntityMap)
         (parsed_update : option Parsed) (handler_type : HandlerType)
         (gs : list (Z * list Handler)) : M unit :=
  match gs with
  | [] => ret tt
  | (key, group) :: rest =>
      emit (EvVisit key) ;;;
      for_handlers d update users chats parsed_update handler_type group ;;;
      for_groups d update users chats parsed_update handler_type rest
  end.

(** [async with lock]: the lock is released however the body ends. *)
Definition with_lock {A} (lock : nat) (body : M A) : M A :=
  emit (EvAcquire lock) ;;;
  r <- attempt body ;;
  emit (EvRelease lock) ;;;
  lift r.

(** The classifier step of the worker: the parser of the update's class
    gives the parsed object and the handler class; without a parser they
    are [None] and [type(None)]. *)
Definition classify (d : Dispatcher) (update : Update) (users chats : EntityMap)
  : M (option Parsed * HandlerType) :=
  match update_parsers_get (utype update) with
  | Some parser => run_parser (client d) parser update users chats
  | None => ret (None, TNoneType)
  end.

(** The body of the outer [try] of the worker. *)
Definition dispatch (d : Dispatcher) (lock : nat) (packet : Packet) : M unit :=
  let '(update, users, chats) := packet in
  ph <- classify d update users chats ;;
  with_lock lock
    (for_groups d update users chats (fst ph) (snd ph) (groups d)).

(** The outer [try] with its two [except] clauses. *)
Definition handle_packet (d : Dispatcher) (lock : nat) (packet : Packet) : M unit :=
  r <- attempt (dispatch d lock packet) ;;
  match r with
  | Ok _ => ret tt
  | Raise e =>
      if isinstance_exn e StopPropagation then ret tt
      else if isinstance_exn e Exception then log_error e
      else raise e
  end.

(** How far a worker gets on a given content of the queue: it leaves its
    loop at the first [None], or waits in [get()] once the queue is empty. *)
Inductive WorkerEnd : Type :=
| Exited (rest : list (option Packet))
| Waiting.

(** [handler_worker(lock)], run on the items the queue holds. *)
Fixpoint handler_worker (d : Dispatcher) (lock : nat)
         (queue : list (option Packet)) : M WorkerEnd :=
  match queue with
  | [] => ret Waiting
  | None :: rest => ret (Exited rest)
  | Some packet :: rest =>
      handle_packet d lock packet ;;;
      handler_worker d lock rest
  end.

(** ** Reading a trace *)

(** The keys of the groups visited, in order. *)
Fixpoint visited (t : list Event) : list Z :=
  match t with
  | [] => []
  | EvVisit key :: rest => key :: visited rest
  | _ :: rest => visited rest
  end.

(** The callbacks invoked by the dispatch loop, in order, each with the
    way its call ended. *)
Fixpoint calls (t : list Event) : list (Handler * list Arg * Result unit) :=
  match t with
  | [] => []
  | EvCall h _ args r :: rest => (h, args, r) :: calls rest
  | _ :: rest => calls rest
  end.

(** The calls of a trace group by group: the calls that precede the first
    visit, and, for each visit, its key with the calls made before the
    next visit. *)
Fixpoint split_calls (t : list Event)
  : list (Handler * list Arg * Result unit)
    * list (Z * list (Handler * list Arg * Result unit)) :=
  match t with
  | [] => ([], [])
  | EvVisit key :: rest =>
      let (cur, later) := split_calls rest in ([], (key, cur) :: later)
  | EvCall h _ args r :: rest =>
      let (cur, later) := split_calls rest in ((h, args, r) :: cur, later)
  | _ :: rest => split_calls rest
  end.

Definition calls_by_group (t : list Event)
  : list (Z * list (Handler * list Arg * Result unit)) :=
  snd (split_calls t).

(** Every call of the list but the last ended with [ContinuePropagation]. *)
Fixpoint all_but_last_continue (cs : list (Handler * list Arg * Result unit))
  : Prop :=
  match cs with
  | [] => True
  | [_] => True
  | c :: rest => snd c = Raise ContinuePropagation /\ all_but_last_continue rest
  end.

(** The events of error routing: calls of error handlers, and log lines. *)
Definition routing_event (ev : Event) : Prop :=
  match ev with
  | EvErrorCall _ _ _ _ | EvLog _ => True
  | _ => False
  end.

(** ** The scan of one group, as the specification words it

    [selects h args t0]: the handler is the one to invoke, with [args];
    [t0] is what selecting it recorded.  Either its class is the one that
    goes with the update and its check returned true, or it is a raw-update
    handler, taken without a check. *)
Section Scan.

Variables (update : Update) (users chats : EntityMap)
          (parsed_update : option Parsed) (handler_type : HandlerType).

Inductive selects (h : Handler) : list Arg -> list Event -> Prop :=
| selects_checked :
    isinstance_handler h handler_type = true ->
    selects h [AParsed parsed_update] [EvCheck h (Ok true)]
| selects_raw :
    isinstance_handler h handler_type = false ->
    is_raw_update_handler h = true ->
    selects h [AUpdate update; AEntities users; AEntities chats] [].

(** [passes h t0]: the handler is passed over.  Its class is neither the
    one that goes with the update nor the raw one, or its check returned
    false, or its check raised (which is logged). *)
Inductive passes (h : Handler) : list Event -> Prop :=
| passes_other_class :
    isinstance_handler h handler_type = false ->
    is_raw_update_handler h = false ->
    passes h []
| passes_check_false :
    isinstance_handler h handler_type = true ->
    passes h [EvCheck h (Ok false)]
| passes_check_raised : forall e,
    isinstance_handler h handler_type = true ->
    passes h [EvCheck h (Raise e); EvLog e].

(** [scanned group t r]: scanning [group] in order records [t] and ends
    with [r].  Handlers are passed over until one is selected; the selected
    one is invoked; the scan goes on with the next handler only when the
    call ended with [ContinuePropagation]; it ends with the group, with a
    call that returned, with [StopPropagation] (raised further), or with a
    call that failed, followed by error routing. *)
Inductive scanned : list Handler -> list Event -> Result unit -> Prop :=
| scanned_end : scanned [] [] (Ok tt)
| scanned_pass : forall h hs t0 t r,
    passes h t0 -> scanned hs t r -> scanned (h :: hs) (t0 ++ t) r
| scanned_resume : forall h hs args t0 t r,
    selects h args t0 -> scanned hs t r ->
    scanned (h :: hs)
            (t0 ++ EvCall h (mode_of h) args (Raise ContinuePropagation) :: t) r
| scanned_returned : forall h hs args t0,
    selects h args t0 ->
    scanned (h :: hs) (t0 ++ [EvCall h (mode_of h) args (Ok tt)]) (Ok tt)
| scanned_stopped : forall h hs args t0,
    selects h args t0 ->
    scanned (h :: hs) (t0 ++ [EvCall h (mode_of h) args (Raise StopPropagation)])
            (Raise StopPropagation)
| scanned_failed : forall h hs args t0 e routing r,
    selects h args t0 ->
    e <> StopPropagation -> e <> ContinuePropagation ->
    Forall routing_event routing ->
    scanned (h :: hs) (t0 ++ EvCall h (mode_of h) args (Raise e) :: routing) r.

(** [toured gs t r]: the groups are visited in the order of [gs], each one
    scanned; a scan that raises ends the tour. *)
Inductive toured : list (Z * list Handler) -> list Event -> Result unit -> Prop :=
| toured_end : toured [] [] (Ok tt)
| toured_next : forall key group gs t1 t2 r,
    scanned group t1 (Ok tt) -> toured gs t2 r ->
    toured ((key, group) :: gs) (EvVisit key :: t1 ++ t2) r
| toured_raised : forall key group gs t1 e,
    scanned group t1 (Raise e) ->
    toured ((key, group) :: gs) (EvVisit key :: t1) (Raise e).

End Scan.

(** The error handlers called, in order. *)
Fixpoint error_calls (t : list Event) : list Handler :=
  match t with
  | [] => []
  | EvErrorCall h _ _ _ :: rest => h :: error_calls rest
  | _ :: rest => error_calls rest
  end.


(** What a trace records after the first call that ended with
    [StopPropagation], if there is one. *)
Fixpoint after_stop (t : list Event) : option (list Event) :=
  match t with
  | [] => None
  | EvCall _ _ _ (Raise StopPropagation) :: rest => Some rest
  | _ :: rest => after_stop rest
  end.


(** The registering tasks of a list of [add_handler] calls, run one after
    the other. *)
Definition add_all (ops : list (Handler * Z)) (d : Dispatcher) : Dispatcher :=
  fold_left (fun d op => snd (add_handler (fst op) (snd op) d)) ops d.

(** ** Start and stop *)

(** [start()]: one lock and one worker task per configured worker. *)
Fixpoint start_loop (n : nat) (d : Dispatcher) : Dispatcher :=
  match n with
  | O => d
  | S n' =>
      let d1 := set_locks d (locks_list d ++ [false]) in
      let d2 := set_tasks d1 (handler_worker_tasks d1 ++ [length (locks_list d1) - 1]) in
      start_loop n' d2
  end.

Definition start (d : Dispatcher) : Dispatcher :=
  if negb (no_updates (client d)) then start_loop (workers (client d)) d else d.

(** [for i in self.handler_worker_tasks: await i], the workers run one
    after the other on the queue; [None] when a worker is left waiting on
    an empty queue, so that the [await] never returns. *)
Fixpoint join_workers (d : Dispatcher) (tasks : list nat) : M (option Dispatcher) :=
  match tasks with
  | [] => ret (Some d)
  | lock :: rest =>
      e <- handler_worker d lock (updates_queue d) ;;
      match e with
      | Exited q => join_workers (set_queue d q) rest
      | Waiting => ret None
      end
  end.

(** [stop()]. *)
Definition stop (d : Dispatcher) : M (option Dispatcher) :=
  if negb (no_updates (client d)) then
    let d1 := set_queue d (updates_queue d ++ repeat None (workers (client d))) in
    joined <- join_workers d1 (handler_worker_tasks d1) ;;
    match joined with
    | Some d2 => ret (Some (set_groups (set_tasks d2 []) []))
    | None => ret None
    end
  else ret (Some d).

End Model.

Arguments Handler W : clear implicits.
Arguments Client W : clear implicits.
Arguments Dispatcher W : clear implicits.
Arguments Event W : clear implicits.
Arguments M W A : clear implicits.

(** ** The locks, with tasks interleaved

    The worker tasks and the registering tasks run on one event loop and
    give way to one another at [await].  A worker is either outside its
    [async with lock] block or inside it; a registering task [fn()] is in
    its first loop ([await lock.acquire()] for each lock of
    [self.locks_list], in order), at its [try] block, or in the loop of its
    [finally] clause.  Worker [i] was created with lock [i].  Each step
    below is one task moving on; a task at [acquire()] moves on only when
    the lock is free. *)
Module Locks.

Section Protocol.

Context {W : Type}.

(** [l[i] = x] for an index in range. *)
Fixpoint set_nth {A : Type} (i : nat) (x : A) (l : list A) : list A :=
  match l, i with
  | [], _ => []
  | _ :: rest, O => x :: rest
  | y :: rest, S j => y :: set_nth j x rest
  end.

(** The three registry mutations, with their arguments. *)
Inductive Mutation : Type :=
| AddHandler (handler : Handler W) (group : Z)
| RemoveHandler (handler : Handler W) (group : Z)
| RemoveErrorHandler (handler : option (Handler W)) (error : option ExnClass).

(** The [try] block of a mutation. *)
Definition try_block (m : Mutation) : Dispatcher W -> Result unit * Dispatcher W :=
  match m with
  | AddHandler handler group => add_handler_body handler group
  | RemoveHandler handler group => remove_handler_body handler group
  | RemoveErrorHandler handler error => remove_error_handler_body handler error
  end.

(** Where a registering task stands.  [Acquiring k]: the locks before
    position [k] are taken by the task, which is at [acquire()] for
    position [k], or at its [try] block when [k] is the number of locks.
    [Releasing k]: the [try] block is over and the locks before position
    [k] are released again. *)
Inductive TaskPC : Type :=
| Acquiring (k : nat)
| Releasing (k : nat)
| Finished.

(** Where a worker stands: outside [async with lock] (waiting for a packet,
    parsing it, or waiting for its lock), inside it, or out of its loop. *)
Inductive WorkerPC : Type :=
| Fetching
| Dispatching
| Stopped.

Record System : Type := {
  disp : Dispatcher W;
  worker_pcs : list WorkerPC;
  tasks : list (Mutation * TaskPC)
}.

Definition lock_state (s : System) : list bool := locks_list (disp s).

Definition with_lock_flag (s : System) (i : nat) (b : bool) : Dispatcher W :=
  set_locks (disp s) (set_nth i b (lock_state s)).

Inductive step (s : System) : System -> Prop :=
(* handler_worker: [async with lock] is entered, the lock being free *)
| worker_acquires : forall i,
    nth_error (worker_pcs s) i = Some Fetching ->
    nth_error (lock_state s) i = Some false ->
    step s {| disp := with_lock_flag s i true;
              worker_pcs := set_nth i Dispatching (worker_pcs s);
              tasks := tasks s |}
(* handler_worker: [async with lock] is left *)
| worker_releases : forall i,
    nth_error (worker_pcs s) i = Some Dispatching ->
    step s {| disp := with_lock_flag s i false;
              worker_pcs := set_nth i Fetching (worker_pcs s);
              tasks := tasks s |}
(* handler_worker: [get()] returns [None], the loop is left *)
| worker_stops : forall i,
    nth_error (worker_pcs s) i = Some Fetching ->
    step s {| disp := disp s;
              worker_pcs := set_nth i Stopped (worker_pcs s);
              tasks := tasks s |}
(* add_handler, remove_handler, remove_error_handler:
   [self.loop.create_task(fn())] *)
| task_created : forall m,
    step s {| disp := disp s;
              worker_pcs := worker_pcs s;
              tasks := tasks s ++ [(m, Acquiring 0)] |}
(* fn: [await lock.acquire()] returns for the next lock of the list *)
| task_acquires : forall j m k,
    nth_error (tasks s) j = Some (m, Acquiring k) ->
    nth_error (lock_state s) k = Some false ->
    step s {| disp := with_lock_flag s k true;
              worker_pcs := worker_pcs s;
              tasks := set_nth j (m, Acquiring (S k)) (tasks s) |}
(* fn: the first loop is over, the [try] block runs *)
| task_mutates : forall j m,
    nth_error (tasks s) j = Some (m, Acquiring (length (lock_state s))) ->
    step s {| disp := snd (try_block m (disp s));
              worker_pcs := worker_pcs s;
              tasks := set_nth j (m, Releasing 0) (tasks s) |}
(* fn: [lock.release()] for the next lock of the list, in [finally] *)
| task_releases : forall j m k,
    nth_error (tasks s) j = Some (m, Releasing k) ->
    k < length (lock_state s) ->
    step s {| disp := with_lock_flag s k false;
              worker_pcs := worker_pcs s;
              tasks := set_nth j (m, Releasing (S k)) (tasks s) |}
(* fn: the second loop is over, the task ends *)
| task_finishes : forall j m,
    nth_error (tasks s) j = Some (m, Releasing (length (lock_state s))) ->
    step s {| disp := disp s;
              worker_pcs := worker_pcs s;
              tasks := set_nth j (m, Finished) (tasks s) |}.

(** After [start()]: one free lock per worker, no worker inside its block,
    no registering task under way. *)
Definition initial (s : System) : Prop :=
  Forall (fun b => b = false) (lock_state s) /\
  length (worker_pcs s) = length (lock_state s) /\
  Forall (fun pc => pc <> Dispatching) (worker_pcs s) /\
  Forall (fun t => snd t = Acquiring 0) (tasks s).

Inductive reachable : System -> Prop :=
| reachable_initial : forall s, initial s -> reachable s
| reachable_step : forall s s', reachable s -> step s s' -> reachable s'.

(** The system right after [start()] on a dispatcher without locks. *)
Definition started (d : Dispatcher W) : System :=
  {| disp := start d;
     worker_pcs := map (fun _ => Fetching) (locks_list (start d));
     tasks := [] |}.

(** What the workers read while they dispatch. *)
Definition registry (d : Dispatcher W) :=
  (groups d, error_handlers d, error_handler_coros d,
   global_error_handler d, global_error_handler_coro d).

(** A run during which worker [i] stays inside its [async with lock]. *)
Inductive dispatching_run (i : nat) : System -> System -> Prop :=
| run_here : forall s, dispatching_run i s s
| run_on : forall s s' s'',
    nth_error (worker_pcs s) i = Some Dispatching ->
    step s s' ->
    dispatching_run i s' s'' ->
    dispatching_run i s s''.

(** The locks a registering task has taken and not yet released, [n] being
    the number of locks. *)
Definition holds (n : nat) (pc : TaskPC) (i : nat) : Prop :=
  match pc with
  | Acquiring k => i < k
  | Releasing k => k <= i < n
  | Finished => False
  end.

End Protocol.

End Locks.

(** ** Concrete handlers and dispatchers

    A world with nothing in it, handlers whose check and callback always
    end the same way, and a client with one worker. *)
Module Examples.

Definition const_handler (id : nat) (cls : HandlerClass) (errs : Errors)
           (coro : bool) (checks : Result bool) (calls : Result unit)
  : Handler unit :=
  {| hid := id;
     hclass := cls;
     errors := errs;
     iscoroutinefunction := coro;
     check := fun _ w => (checks, w);
     callback := fun _ w => (calls, w) |}.

Definition one_worker : Client unit :=
  {| no_updates := false;
     workers := 1;
     parse_object := fun _ u _ _ w => (Ok (Some (ubody u)), w) |}.

(** Message handlers that return, continue, stop, or fail. *)
Definition msg_ok (id : nat) := const_handler id MessageHandler ErrorsNone true (Ok true) (Ok tt).
Definition msg_continue (id : nat) :=
  const_handler id MessageHandler ErrorsNone true (Ok true) (Raise ContinuePropagation).
Definition msg_stop (id : nat) :=
  const_handler id MessageHandler ErrorsNone true (Ok true) (Raise StopPropagation).
Definition msg_fails (id : nat) :=
  const_handler id MessageHandler ErrorsNone true (Ok true) (Raise ValueError).

(** A scoped error handler for [ValueError] and a global one. *)
Definition on_value_error (id : nat) :=
  const_handler id ErrorHandler (ErrorsTuple [ValueError]) true (Ok true) (Ok tt).
Definition on_any_error (id : nat) :=
  const_handler id ErrorHandler ErrorsNone true (Ok true) (Ok tt).

Definition new_message : Packet := ({| utype := UpdateNewMessage; ubody := 7 |}, [], []).

(** Registering handlers one after the other on a fresh dispatcher. *)
Definition register (ops : list (Handler unit * Z)) : Dispatcher unit :=
  add_all ops (init one_worker).

(** One worker started on a dispatcher with one handler, and the same
    system once a registering task has taken the only lock. *)
Definition booted : Locks.System (W:=unit) :=
  Locks.started (register [(msg_ok 1, 0%Z)]).

Definition created : Locks.System (W:=unit) :=
  {| Locks.disp := Locks.disp booted;
     Locks.worker_pcs := Locks.worker_pcs booted;
     Locks.tasks := Locks.tasks booted
                    ++ [(Locks.AddHandler (msg_ok 2) 0%Z, Locks.Acquiring 0)] |}.

Definition registering : Locks.System (W:=unit) :=
  {| Locks.disp := set_locks (Locks.disp booted) [true];
     Locks.worker_pcs := [Locks.Fetching];
     Locks.tasks := [(Locks.AddHandler (msg_ok 2) 0%Z, Locks.Acquiring 1)] |}.

End Examples.

(** * Properties *)

(** ** The ordered dictionary *)
Section DictFacts.

Context {W : Type}.
Implicit Types (g : list (Z * list (Handler W))) (h : Handler W).

Lemma dict_contains_false_get : forall group g,
  dict_contains group g = false <-> dict_get group g = None.
Proof.
  intros group g; induction g as [|[k v] g IH]; simpl.
  - tauto.
  - destruct (Z.eqb k group); simpl; [split; discriminate | exact IH].
Qed.

Lemma dict_contains_true_get : forall group g,
  dict_contains group g = true -> exists l, dict_get group g = Some l.
Proof.
  intros group g Hc. destruct (dict_get group g) as [l|] eqn:E.
  - now exists l.
  - apply dict_contains_false_get in E. congruence.
Qed.

Lemma dict_contains_keys : forall group g,
  dict_contains group g = true <-> In group (map fst g).
Proof.
  intros group g; induction g as [|[k v] g IH]; simpl.
  - split; [discriminate | tauto].
  - destruct (Z.eqb_spec k group); simpl.
    + split; auto.
    + rewrite IH. split; [auto | intros [H|H]; [contradiction | exact H]].
Qed.

Lemma dict_get_set_same : forall group v g,
  dict_get group (dict_set group v g) = Some v.
Proof.
  intros group v g; induction g as [|[k w] g IH]; simpl.
  - now rewrite Z.eqb_refl.
  - destruct (Z.eqb k group) eqn:E; simpl; rewrite E; auto.
Qed.

Lemma dict_get_set_other : forall group k v g,
  k <> group -> dict_get k (dict_set group v g) = dict_get k g.
Proof.
  intros group k v g Hne; induction g as [|[k' w] g IH]; simpl.
  - destruct (Z.eqb_spec group k); congruence.
  - destruct (Z.eqb_spec k' group); simpl.
    + subst k'. destruct (Z.eqb_spec group k); congruence.
    + now rewrite IH.
Qed.

Lemma dict_set_keys_present : forall group v g,
  dict_contains group g = true -> map fst (dict_set group v g) = map fst g.
Proof.
  intros group v g; induction g as [|[k w] g IH]; simpl.
  - discriminate.
  - destruct (Z.eqb k group) eqn:E; simpl; intros H.
    + reflexivity.
    + now rewrite IH.
Qed.

Lemma dict_set_absent : forall group v g,
  dict_contains group g = false -> dict_set group v g = g ++ [(group, v)].
Proof.
  intros group v g; induction g as [|[k w] g IH]; simpl.
  - reflexivity.
  - destruct (Z.eqb k group) eqn:E; simpl; intros H.
    + discriminate.
    + now rewrite IH.
Qed.

(** Sorting the items does not change what a key is bound to. *)
Lemma dict_get_insert_item : forall k kv g,
  dict_get k (insert_item kv g) =
  if Z.eqb (fst kv) k then Some (snd kv) else dict_get k g.
Proof.
  intros k [k' v] g; induction g as [|[k2 w] g IH]; simpl.
  - reflexivity.
  - destruct (Z.leb_spec k' k2); simpl.
    + reflexivity.
    + rewrite IH. simpl.
      destruct (Z.eqb_spec k2 k), (Z.eqb_spec k' k); try reflexivity; lia.
Qed.

Lemma dict_get_sorted_items : forall k g,
  dict_get k (sorted_items g) = dict_get k g.
Proof.
  intros k g; induction g as [|[k' v] g IH]; simpl.
  - reflexivity.
  - rewrite dict_get_insert_item. simpl. now rewrite IH.
Qed.

Lemma insert_item_keys_in : forall k kv g,
  In k (map fst (insert_item kv g)) <-> k = fst kv \/ In k (map fst g).
Proof.
  intros k kv g; induction g as [|kw g IH]; simpl.
  - intuition.
  - destruct (Z.leb (fst kv) (fst kw)); simpl.
    + intuition.
    + rewrite IH. intuition.
Qed.

Lemma sorted_items_keys_in : forall k g,
  In k (map fst (sorted_items g)) <-> In k (map fst g).
Proof.
  intros k g; induction g as [|kv g IH]; simpl.
  - tauto.
  - rewrite insert_item_keys_in, IH. intuition.
Qed.

End DictFacts.

(** ** Keys stay in ascending order *)
Section SortedKeys.

Context {W : Type}.
Implicit Types (g : list (Z * list (Handler W))) (h : Handler W)
         (d : Dispatcher W).

Lemma ascending_NoDup : forall keys : list Z,
  StronglySorted Z.lt keys -> NoDup keys.
Proof.
  induction 1 as [|k keys Hs IH Hall]; constructor; auto.
  intros Hin. rewrite Forall_forall in Hall. specialize (Hall _ Hin). lia.
Qed.

Lemma insert_item_ascending : forall kv g,
  StronglySorted Z.lt (map fst g) ->
  ~ In (fst kv) (map fst g) ->
  StronglySorted Z.lt (map fst (insert_item kv g)).
Proof.
  intros kv g; induction g as [|kw g IH]; simpl; intros Hs Hnew.
  - repeat constructor.
  - inversion Hs as [|? ? Hs' Hall]; subst.
    destruct (Z.leb_spec (fst kv) (fst kw)); simpl.
    + constructor; [exact Hs|].
      assert (fst kv < fst kw)%Z by (assert (fst kw <> fst kv) by tauto; lia).
      constructor; [assumption|].
      rewrite Forall_forall in *. intros x Hx. specialize (Hall x Hx). lia.
    + constructor.
      * apply IH; tauto.
      * rewrite Forall_forall in *. intros x Hx.
        apply insert_item_keys_in in Hx. destruct Hx as [->|Hx]; [lia | auto].
Qed.

Lemma sorted_items_ascending : forall g,
  NoDup (map fst g) -> StronglySorted Z.lt (map fst (sorted_items g)).
Proof.
  induction g as [|kv g IH]; simpl; intros Hnd.
  - constructor.
  - inversion Hnd; subst. apply insert_item_ascending; auto.
    now rewrite sorted_items_keys_in.
Qed.

Lemma ensure_group_ascending : forall group g,
  StronglySorted Z.lt (map fst g) ->
  StronglySorted Z.lt (map fst (ensure_group group g)).
Proof.
  intros group g Hs. unfold ensure_group.
  destruct (dict_contains group g) eqn:E; [exact Hs|].
  apply sorted_items_ascending. rewrite dict_set_absent by exact E.
  rewrite map_app. simpl.
  apply NoDup_app.
  - now apply ascending_NoDup.
  - repeat constructor. simpl; tauto.
  - intros a Hin [<-|[]]. apply dict_contains_keys in Hin. congruence.
Qed.

End SortedKeys.

(** ** What the registry tasks change *)
Section RegistryFacts.

Context {W : Type}.
Implicit Types (g : list (Z * list (Handler W))) (h handler : Handler W)
         (d : Dispatcher W).

Lemma with_all_locks_result : forall body d,
  fst (with_all_locks body d) = fst (body (acquire_all d)).
Proof. intros body d. unfold with_all_locks. now destruct (body (acquire_all d)). Qed.

Lemma with_all_locks_state : forall body d,
  snd (with_all_locks body d) = release_all (snd (body (acquire_all d))).
Proof. intros body d. unfold with_all_locks. now destruct (body (acquire_all d)). Qed.

Lemma dict_get_ensure_group : forall group k g,
  dict_get k (ensure_group group g) =
  if Z.eqb k group then Some (group_of group g) else dict_get k g.
Proof.
  intros group k g. unfold ensure_group, group_of.
  destruct (dict_contains group g) eqn:E.
  - destruct (Z.eqb_spec k group); [subst k | reflexivity].
    destruct (dict_contains_true_get _ _ E) as [l Hl]. now rewrite Hl.
  - rewrite dict_get_sorted_items.
    apply dict_contains_false_get in E.
    destruct (Z.eqb_spec k group).
    + subst k. now rewrite dict_get_set_same, E.
    + now rewrite dict_get_set_other.
Qed.

Lemma ensure_group_contains : forall group g,
  dict_contains group (ensure_group group g) = true.
Proof.
  intros group g.
  destruct (dict_contains group (ensure_group group g)) eqn:E; [reflexivity|].
  apply dict_contains_false_get in E.
  rewrite dict_get_ensure_group, Z.eqb_refl in E. discriminate.
Qed.

Lemma ensure_group_keys : forall group k g,
  In k (map fst (ensure_group group g)) <-> k = group \/ In k (map fst g).
Proof.
  intros group k g. unfold ensure_group.
  destruct (dict_contains group g) eqn:E.
  - apply dict_contains_keys in E. split; [tauto | intros [->|H]; assumption].
  - rewrite sorted_items_keys_in, dict_set_absent, map_app, in_app_iff by exact E.
    simpl. intuition.
Qed.

(** The groups [add_handler] leaves: the handler at the end of its group. *)
Lemma add_handler_body_groups : forall handler group d,
  groups (snd (add_handler_body handler group d)) =
  dict_set group (group_of group (groups d) ++ [handler])
           (ensure_group group (groups d)).
Proof.
  intros handler group d. unfold add_handler_body. cbv zeta.
  set (d1 := if dict_contains group (groups d) then d else _).
  assert (H1 : groups d1 = ensure_group group (groups d)).
  { unfold d1, ensure_group. now destruct (dict_contains group (groups d)). }
  set (d2 := if is_error_handler handler then _ else d1).
  assert (H2 : groups d2 = groups d1).
  { unfold d2. destruct (is_error_handler handler); [|reflexivity].
    now destruct (errors handler). }
  clearbody d2 d1.
  rewrite H2, H1, dict_get_ensure_group, Z.eqb_refl. reflexivity.
Qed.

Lemma add_handler_body_ok : forall handler group d,
  fst (add_handler_body handler group d) = Ok tt.
Proof.
  intros handler group d. unfold add_handler_body. cbv zeta.
  set (d1 := if dict_contains group (groups d) then d else _).
  assert (H1 : groups d1 = ensure_group group (groups d)).
  { unfold d1, ensure_group. now destruct (dict_contains group (groups d)). }
  set (d2 := if is_error_handler handler then _ else d1).
  assert (H2 : groups d2 = groups d1).
  { unfold d2. destruct (is_error_handler handler); [|reflexivity].
    now destruct (errors handler). }
  clearbody d2 d1.
  now rewrite H2, H1, dict_get_ensure_group, Z.eqb_refl.
Qed.

Lemma add_handler_groups : forall handler group d,
  groups (snd (add_handler handler group d)) =
  dict_set group (group_of group (groups d) ++ [handler])
           (ensure_group group (groups d)).
Proof.
  intros. unfold add_handler. rewrite with_all_locks_state. simpl.
  now rewrite add_handler_body_groups.
Qed.

Lemma add_handler_get : forall handler group k d,
  dict_get k (groups (snd (add_handler handler group d))) =
  if Z.eqb k group then Some (group_of group (groups d) ++ [handler])
  else dict_get k (groups d).
Proof.
  intros. rewrite add_handler_groups.
  destruct (Z.eqb_spec k group).
  - subst k. apply dict_get_set_same.
  - rewrite dict_get_set_other by assumption.
    rewrite dict_get_ensure_group.
    destruct (Z.eqb_spec k group); congruence.
Qed.

Lemma add_handler_keys : forall handler group k d,
  In k (map fst (groups (snd (add_handler handler group d)))) <->
  k = group \/ In k (map fst (groups d)).
Proof.
  intros. rewrite add_handler_groups.
  rewrite dict_set_keys_present by apply ensure_group_contains.
  apply ensure_group_keys.
Qed.

Lemma add_handler_ascending : forall handler group d,
  StronglySorted Z.lt (map fst (groups d)) ->
  StronglySorted Z.lt (map fst (groups (snd (add_handler handler group d)))).
Proof.
  intros. rewrite add_handler_groups.
  rewrite dict_set_keys_present by apply ensure_group_contains.
  now apply ensure_group_ascending.
Qed.

End RegistryFacts.

(** ** Removing a handler *)
Section RemoveHandler.

Context {W : Type}.
Implicit Types (h handler : Handler W) (d : Dispatcher W).

Lemma list_remove_absent : forall handler (l : list (Handler W)),
  Forall (fun h' => hid h' <> hid handler) l -> list_remove handler l = None.
Proof.
  intros handler l; induction 1 as [|h' l Hne _ IH]; simpl.
  - reflexivity.
  - unfold handler_eqb. destruct (Nat.eqb_spec (hid h') (hid handler)); [contradiction|].
    now rewrite IH.
Qed.

(** The scoped list, its flags and the global slot of two dispatchers
    are the same. *)
Definition same_error_handlers d d' : Prop :=
  error_handlers d' = error_handlers d /\
  error_handler_coros d' = error_handler_coros d /\
  global_error_handler d' = global_error_handler d /\
  global_error_handler_coro d' = global_error_handler_coro d.

Lemma remove_handler_body_error_handlers : forall handler group d,
  same_error_handlers d (snd (remove_handler_body handler group d)).
Proof.
  intros handler group d. unfold remove_handler_body, same_error_handlers.
  destruct (dict_contains group (groups d)); simpl; [|tauto].
  destruct (dict_get group (groups d)) as [l|]; simpl; [|tauto].
  destruct (list_remove handler l); simpl; tauto.
Qed.

Lemma remove_handler_error_handlers : forall handler group d,
  same_error_handlers d (snd (remove_handler handler group d)).
Proof.
  intros handler group d. unfold remove_handler.
  rewrite with_all_locks_state.
  destruct (remove_handler_body_error_handlers handler group (acquire_all d))
    as (H1 & H2 & H3 & H4).
  unfold same_error_handlers. simpl. auto.
Qed.

Lemma bind_ext : forall {A B} (m : M W A) (f f' : A -> M W B) w,
  (forall a w', f a w' = f' a w') -> bind m f w = bind m f' w.
Proof.
  intros A B m f f' w H. unfold bind.
  destruct (m w) as [[[a|e] w1] t1]; [now rewrite H | reflexivity].
Qed.

Lemma route_scoped_same : forall d d' e args todo executed w,
  same_error_handlers d d' ->
  route_scoped d' e args todo executed w = route_scoped d e args todo executed w.
Proof.
  intros d d' e args todo executed w (H1 & H2 & _).
  revert executed w; induction todo as [|eh rest IH]; intros executed w; simpl.
  - reflexivity.
  - apply bind_ext. intros [] w1; [|apply IH].
    rewrite H1, H2.
    apply bind_ext; intros index w2.
    apply bind_ext; intros flag w3.
    apply bind_ext; intros _ w4. apply IH.
Qed.

Lemma route_error_same : forall d d' e args w,
  same_error_handlers d d' ->
  route_error d' e args w = route_error d e args w.
Proof.
  intros d d' e args w H. pose proof H as (H1 & H2 & H3 & H4).
  unfold route_error, global_callback_owner. rewrite H1, H3, H4.
  destruct (error_handlers d) as [|eh rest] eqn:E; [reflexivity|].
  unfold bind. rewrite route_scoped_same with (d := d) by exact H. reflexivity.
Qed.

End RemoveHandler.

Section RemoveHandlerClaims.

Context {W : Type}.
Implicit Types (h handler : Handler W) (d : Dispatcher W).

(** C7.  [remove_handler(handler, group)] for a group that is not a key of
    [self.groups], or for a group whose list does not hold the handler,
    raises [ValueError] (the not-found condition), and the registry is what
    it was: the groups, the scoped error handlers with their flags, and the
    global slot. *)
Theorem remove_handler_not_found : forall handler group d,
  dict_contains group (groups d) = false \/
  (exists l, dict_get group (groups d) = Some l /\
             Forall (fun h' => hid h' <> hid handler) l) ->
  fst (remove_handler handler group d) = Raise ValueError /\
  groups (snd (remove_handler handler group d)) = groups d /\
  error_handlers (snd (remove_handler handler group d)) = error_handlers d /\
  error_handler_coros (snd (remove_handler handler group d)) = error_handler_coros d /\
  global_error_handler (snd (remove_handler handler group d)) = global_error_handler d /\
  global_error_handler_coro (snd (remove_handler handler group d)) =
    global_error_handler_coro d.
Proof.
  intros handler group d Habsent.
  assert (Hbody : remove_handler_body handler group (acquire_all d) =
                  (Raise ValueError, acquire_all d)).
  { unfold remove_handler_body. simpl groups.
    destruct Habsent as [Hno | (l & Hl & Hnot)].
    - now rewrite Hno.
    - destruct (dict_contains group (groups d)) eqn:Hc; simpl.
      + rewrite Hl, list_remove_absent by exact Hnot. reflexivity.
      + reflexivity. }
  unfold remove_handler.
  rewrite with_all_locks_result, with_all_locks_state, Hbody.
  simpl. repeat split; reflexivity.
Qed.

(** C10.  [remove_handler] touches the named group and nothing else: every
    other group, the scoped error handlers, their coroutine flags and the
    global slot are as before, so an exception is routed after the removal
    exactly as it was routed before it, to the removed [ErrorHandler] too. *)
Theorem remove_handler_keeps_error_routing : forall handler group d,
  error_handlers (snd (remove_handler handler group d)) = error_handlers d /\
  error_handler_coros (snd (remove_handler handler group d)) = error_handler_coros d /\
  global_error_handler (snd (remove_handler handler group d)) = global_error_handler d /\
  global_error_handler_coro (snd (remove_handler handler group d)) =
    global_error_handler_coro d /\
  (forall k, k <> group ->
     dict_get k (groups (snd (remove_handler handler group d))) =
     dict_get k (groups d)) /\
  (forall e args w,
     route_error (snd (remove_handler handler group d)) e args w =
     route_error d e args w).
Proof.
  intros handler group d.
  pose proof (remove_handler_error_handlers handler group d) as Hsame.
  destruct Hsame as (E1 & E2 & E3 & E4).
  repeat split; try assumption.
  - intros k Hk. unfold remove_handler. rewrite with_all_locks_state.
    unfold remove_handler_body. simpl groups.
    destruct (dict_contains group (groups d)); simpl; [|reflexivity].
    destruct (dict_get group (groups d)) as [l|]; simpl; [|reflexivity].
    destruct (list_remove handler l); simpl; [|reflexivity].
    now apply dict_get_set_other.
  - intros e args w. apply route_error_same. repeat split; assumption.
Qed.

End RemoveHandlerClaims.

(** C7 at work: group 3 does not exist, and group 0 does not hold the
    handler named. *)
Lemma remove_handler_not_found_witness :
  fst (remove_handler (Examples.msg_ok 2) 3 (Examples.register [(Examples.msg_ok 1, 0%Z)]))
    = Raise ValueError /\
  fst (remove_handler (Examples.msg_ok 2) 0 (Examples.register [(Examples.msg_ok 1, 0%Z)]))
    = Raise ValueError.
Proof.
  split.
  - apply (@remove_handler_not_found unit (Examples.msg_ok 2) 3%Z
             (Examples.register [(Examples.msg_ok 1, 0%Z)])).
    left. reflexivity.
  - apply (@remove_handler_not_found unit (Examples.msg_ok 2) 0%Z
             (Examples.register [(Examples.msg_ok 1, 0%Z)])).
    right. exists [Examples.msg_ok 1]. split; [reflexivity|].
    constructor; [simpl; lia | constructor].
Defined.

(** ** The worker never raises *)
Section WorkerFacts.

Context {W : Type}.
Implicit Types (d : Dispatcher W) (w : W).

Lemma isinstance_Exception : forall e : exn, isinstance_exn e Exception = true.
Proof. intros e; destruct e; reflexivity. Qed.

Lemma isinstance_StopPropagation : forall e : exn,
  isinstance_exn e StopPropagation = true <-> e = StopPropagation.
Proof. intros e; destruct e; simpl; split; intros H; try discriminate H; reflexivity. Qed.

Lemma isinstance_ContinuePropagation : forall e : exn,
  isinstance_exn e ContinuePropagation = true <-> e = ContinuePropagation.
Proof. intros e; destruct e; simpl; split; intros H; try discriminate H; reflexivity. Qed.

Lemma handle_packet_ok : forall d lock packet w,
  result_of (handle_packet d lock packet) w = Ok tt.
Proof.
  intros d lock packet w. unfold result_of, handle_packet, bind, attempt.
  destruct (dispatch d lock packet w) as [[[[]|e] w1] t1]; simpl.
  - reflexivity.
  - destruct (isinstance_exn e StopPropagation); simpl; [reflexivity|].
    now rewrite isinstance_Exception.
Qed.

(** The sentinels a queue holds. *)
Fixpoint sentinels (q : list (option Packet)) : nat :=
  match q with
  | [] => 0
  | None :: rest => S (sentinels rest)
  | Some _ :: rest => sentinels rest
  end.

Lemma sentinels_app : forall q q',
  sentinels (q ++ q') = sentinels q + sentinels q'.
Proof.
  induction q as [|[p|] q IH]; intros q'; simpl; auto.
Qed.

Lemma sentinels_repeat : forall n, sentinels (repeat None n) = n.
Proof. induction n; simpl; auto. Qed.

(** A worker leaves its loop at the first sentinel. *)
Lemma handler_worker_exits : forall d lock q w,
  0 < sentinels q ->
  exists rest, result_of (handler_worker d lock q) w = Ok (Exited rest) /\
               sentinels rest = sentinels q - 1.
Proof.
  intros d lock q; induction q as [|[p|] q IH]; simpl; intros w Hs.
  - lia.
  - pose proof (handle_packet_ok d lock p w) as Hok.
    unfold result_of, bind in *.
    destruct (handle_packet d lock p w) as [[r w1] t1]. simpl in Hok. subst r.
    destruct (IH w1 Hs) as (rest & Hr & Hn).
    destruct (handler_worker d lock q w1) as [[r2 w2] t2]. simpl in *.
    exists rest. auto.
  - exists q. split; [reflexivity | lia].
Qed.

Lemma handler_worker_ok : forall d lock q w,
  exists e, result_of (handler_worker d lock q) w = Ok e.
Proof.
  intros d lock q; induction q as [|[p|] q IH]; simpl; intros w.
  - now exists Waiting.
  - pose proof (handle_packet_ok d lock p w) as Hok.
    unfold result_of, bind in *.
    destruct (handle_packet d lock p w) as [[r w1] t1]. simpl in Hok. subst r.
    destruct (IH w1) as (e & He).
    destruct (handler_worker d lock q w1) as [[r2 w2] t2]. simpl in *.
    now exists e.
  - now exists (Exited q).
Qed.

(** Joining the workers changes the queue and nothing else. *)
Lemma join_workers_state : forall tasks d w d2,
  result_of (join_workers d tasks) w = Ok (Some d2) ->
  exists q, d2 = set_queue d q.
Proof.
  induction tasks as [|lock tasks IH]; simpl; intros d w d2 H.
  - unfold result_of, ret in H. simpl in H. injection H as <-.
    exists (updates_queue d). now destruct d.
  - unfold result_of, bind in *.
    destruct (handler_worker d lock (updates_queue d) w) as [[[e|x] w1] t1];
      simpl in H; [|discriminate].
    destruct e as [q|].
    + destruct (join_workers (set_queue d q) tasks w1) as [[r2 w2] t2] eqn:E.
      simpl in H. subst r2.
      destruct (IH (set_queue d q) w1 d2) as (q' & ->).
      { now rewrite E. }
      now exists q'.
    + simpl in H. discriminate.
Qed.

Lemma join_workers_completes : forall tasks d w,
  length tasks <= sentinels (updates_queue d) ->
  exists d2, result_of (join_workers d tasks) w = Ok (Some d2).
Proof.
  induction tasks as [|lock tasks IH]; simpl; intros d w Hn.
  - now exists d.
  - destruct (handler_worker_exits d lock (updates_queue d) w) as (rest & Hr & Hs);
      [lia|].
    unfold result_of, bind in *.
    destruct (handler_worker d lock (updates_queue d) w) as [[r w1] t1].
    simpl in Hr. subst r.
    destruct (IH (set_queue d rest) w1) as (d2 & Hd2); [simpl; lia|].
    destruct (join_workers (set_queue d rest) tasks w1) as [[r2 w2] t2].
    simpl in *. now exists d2.
Qed.

End WorkerFacts.

Section StopClaims.

Context {W : Type}.
Implicit Types (d : Dispatcher W) (w : W).

(** C8, as the code has it.  Construction creates the groups, the scoped
    error handlers with their flags and the global slot, all empty.  With
    updates enabled, [stop()] completes when there are no more worker tasks
    than configured workers; once it has completed, the groups and the
    worker tasks are cleared, and the scoped error handlers, their flags and
    the global slot are what they were before [stop()]. *)
Theorem stop_clears_groups_only : forall d w,
  no_updates (client d) = false ->
  (forall c : Client W,
     groups (init c) = [] /\ error_handlers (init c) = [] /\
     error_handler_coros (init c) = [] /\ global_error_handler (init c) = None) /\
  (length (handler_worker_tasks d) <= workers (client d) ->
   exists d', result_of (stop d) w = Ok (Some d')) /\
  (forall d', result_of (stop d) w = Ok (Some d') ->
     groups d' = [] /\
     handler_worker_tasks d' = [] /\
     error_handlers d' = error_handlers d /\
     error_handler_coros d' = error_handler_coros d /\
     global_error_handler d' = global_error_handler d /\
     global_error_handler_coro d' = global_error_handler_coro d).
Proof.
  intros d w Hupd. split; [|split].
  - intros c. simpl. auto.
  - intros Hlen. unfold stop. rewrite Hupd. simpl negb. cbv iota.
    set (d1 := set_queue d _).
    destruct (join_workers_completes (handler_worker_tasks d1) d1 w) as (d2 & H2).
    { unfold d1. simpl. rewrite sentinels_app, sentinels_repeat. lia. }
    unfold result_of, bind in *.
    destruct (join_workers d1 (handler_worker_tasks d1) w) as [[r w1] t1].
    simpl in H2. subst r. simpl. eauto.
  - intros d' H. unfold stop in H. rewrite Hupd in H. simpl negb in H. cbv iota in H.
    set (d1 := set_queue d _) in H.
    unfold result_of, bind in H.
    destruct (join_workers d1 (handler_worker_tasks d1) w) as [[r w1] t1] eqn:E.
    destruct r as [[d2|]|e]; simpl in H; try discriminate.
    injection H as <-.
    destruct (join_workers_state (handler_worker_tasks d1) d1 w (d2 := d2)) as (q & ->).
    { unfold result_of. now rewrite E. }
    simpl. repeat split; reflexivity.
Qed.

End StopClaims.

(** C8 at work: one worker, one message handler, one scoped error handler. *)
Lemma stop_clears_groups_only_witness :
  exists d',
    result_of (stop (start (Examples.register
                 [(Examples.msg_ok 1, 0%Z); (Examples.on_value_error 2, 0%Z)]))) tt
      = Ok (Some d') /\
    groups d' = [] /\ error_handlers d' = [Examples.on_value_error 2].
Proof.
  destruct (@stop_clears_groups_only unit
              (start (Examples.register
                 [(Examples.msg_ok 1, 0%Z); (Examples.on_value_error 2, 0%Z)])) tt
              eq_refl) as (_ & Hdone & Hafter).
  destruct Hdone as (d' & Hd'); [simpl; lia|].
  exists d'. split; [exact Hd'|].
  destruct (Hafter d' Hd') as (Hg & _ & He & _).
  split; [exact Hg | rewrite He; reflexivity].
Defined.

(** C8 as stated fails: after [stop()] the scoped error handler and the
    global one are still registered. *)
Lemma stop_keeps_error_handlers :
  exists d',
    result_of (stop (start (Examples.register
                 [(Examples.on_value_error 1, 0%Z); (Examples.on_any_error 2, 0%Z)]))) tt
      = Ok (Some d') /\
    ~ (groups d' = [] /\ error_handlers d' = [] /\ global_error_handler d' = None).
Proof.
  eexists. split.
  - vm_compute. reflexivity.
  - intros (_ & H & _). discriminate H.
Qed.

(** ** The dispatch loop meets the scan *)
Section DispatchFacts.

Context {W : Type}.
Variables (d : Dispatcher W) (update : Update) (users chats : EntityMap)
          (parsed_update : option Parsed) (handler_type : HandlerType).

Local Abbreviation selects' := (selects update users chats parsed_update handler_type).
Local Abbreviation passes' := (passes handler_type).
Local Abbreviation scanned' := (scanned update users chats parsed_update handler_type).
Local Abbreviation toured' := (toured update users chats parsed_update handler_type).

Lemma select_args_cases : forall (h : Handler W) w,
  (exists args t0 w1,
     select_args update users chats parsed_update handler_type h w
       = (Ok (Some args), w1, t0) /\ selects' h args t0) \/
  (exists t0 w1,
     select_args update users chats parsed_update handler_type h w
       = (Ok None, w1, t0) /\ passes' h t0).
Proof.
  intros h w. unfold select_args.
  destruct (isinstance_handler h handler_type) eqn:Hi.
  - unfold bind, attempt, handler_check.
    destruct (if is_error_handler h then (Ok true, w) else check h parsed_update w)
      as [[[]|e] w1]; simpl.
    + left. do 3 eexists. split; [reflexivity|]. now constructor.
    + right. do 2 eexists. split; [reflexivity|]. now constructor.
    + rewrite isinstance_Exception. simpl.
      right. do 2 eexists. split; [reflexivity|]. now constructor.
  - destruct (is_raw_update_handler h) eqn:Hr.
    + left. do 3 eexists. split; [reflexivity|]. now constructor.
    + right. do 2 eexists. split; [reflexivity|]. now constructor.
Qed.

Lemma bind_events : forall {A B} (P : Event W -> Prop) (m : M W A) (f : A -> M W B) w,
  Forall P (trace_of m w) ->
  (forall a w', Forall P (trace_of (f a) w')) ->
  Forall P (trace_of (bind m f) w).
Proof.
  intros A B P m f w Hm Hf. unfold trace_of, bind in *.
  destruct (m w) as [[[a|e] w1] t1]; simpl in *; [|exact Hm].
  specialize (Hf a w1). destruct (f a w1) as [[r2 w2] t2]. simpl in *.
  apply Forall_app. split; assumption.
Qed.

Lemma lift_events : forall {A} (P : Event W -> Prop) (r : Result A) w,
  Forall P (trace_of (lift r) w).
Proof. intros. constructor. Qed.

Lemma ret_events : forall {A} (P : Event W -> Prop) (a : A) w,
  Forall P (trace_of (ret a) w).
Proof. intros. constructor. Qed.

Lemma invoke_error_handler_events : forall (h : Handler W) coro e args w,
  Forall (@routing_event W) (trace_of (invoke_error_handler h coro e args) w).
Proof.
  intros. unfold trace_of, invoke_error_handler.
  destruct (callback h (AErr e :: args) w) as [r w1]. repeat constructor.
Qed.

Lemma route_scoped_events : forall e args todo executed w,
  Forall (@routing_event W) (trace_of (route_scoped d e args todo executed) w).
Proof.
  intros e args todo; induction todo as [|eh rest IH]; intros executed w; simpl.
  - constructor.
  - apply bind_events; [apply lift_events|]. intros [] w1; [|apply IH].
    apply bind_events; [apply lift_events|]. intros index w2.
    apply bind_events; [apply lift_events|]. intros flag w3.
    apply bind_events; [apply invoke_error_handler_events|]. intros _ w4.
    apply IH.
Qed.

Lemma route_error_events : forall e args w,
  Forall (@routing_event W) (trace_of (route_error d e args) w).
Proof.
  intros e args w. unfold route_error. apply bind_events.
  - destruct (error_handlers d) eqn:E; [constructor|].
    rewrite <- E. apply route_scoped_events.
  - intros executed w1.
    destruct (negb executed || truthy_handler (global_error_handler d)).
    + destruct (truthy_flag (global_error_handler_coro d));
        (apply bind_events; [apply lift_events|]);
        intros h w2; apply invoke_error_handler_events.
    + repeat constructor.
Qed.

(** The ways one pass of the loop body can end. *)
Inductive handled (h : Handler W) : Result Flow -> list (Event W) -> Prop :=
| handled_pass : forall t0,
    passes' h t0 -> handled h (Ok FlowContinue) t0
| handled_continue : forall args t0,
    selects' h args t0 ->
    handled h (Ok FlowContinue)
            (t0 ++ [EvCall h (mode_of h) args (Raise ContinuePropagation)])
| handled_returned : forall args t0,
    selects' h args t0 ->
    handled h (Ok FlowBreak) (t0 ++ [EvCall h (mode_of h) args (Ok tt)])
| handled_stopped : forall args t0,
    selects' h args t0 ->
    handled h (Raise StopPropagation)
            (t0 ++ [EvCall h (mode_of h) args (Raise StopPropagation)])
| handled_failed : forall args t0 e routing r,
    selects' h args t0 ->
    e <> StopPropagation -> e <> ContinuePropagation ->
    Forall (@routing_event W) routing ->
    r <> Ok FlowContinue ->
    handled h r (t0 ++ EvCall h (mode_of h) args (Raise e) :: routing).

Lemma handle_one_handled : forall h w,
  handled h
    (result_of (handle_one d update users chats parsed_update handler_type h) w)
    (trace_of (handle_one d update users chats parsed_update handler_type h) w).
Proof.
  intros h w. unfold result_of, trace_of, handle_one, bind.
  destruct (select_args_cases h w)
    as [(args & t0 & w1 & -> & Hsel) | (t0 & w1 & -> & Hpass)].
  - unfold attempt, invoke.
    destruct (callback h args w1) as [[[]|e] w2]; simpl.
    + now apply handled_returned.
    + destruct (isinstance_exn e StopPropagation) eqn:Hstop.
      { apply isinstance_StopPropagation in Hstop. subst e. simpl.
        now apply handled_stopped. }
      destruct (isinstance_exn e ContinuePropagation) eqn:Hcont.
      { apply isinstance_ContinuePropagation in Hcont. subst e. simpl.
        now apply handled_continue. }
      rewrite isinstance_Exception.
      pose proof (route_error_events e args w2) as Hroute.
      unfold trace_of in Hroute.
      destruct (route_error d e args w2) as [[[[]|x] w3] t3]; simpl in *;
        rewrite ?app_nil_r;
        (apply handled_failed; [assumption| | |assumption|discriminate]);
        intros ->; simpl in *; discriminate.
  - simpl. rewrite app_nil_r. now apply handled_pass.
Qed.

Lemma for_handlers_scanned : forall hs w,
  scanned' hs
    (trace_of (for_handlers d update users chats parsed_update handler_type hs) w)
    (result_of (for_handlers d update users chats parsed_update handler_type hs) w).
Proof.
  induction hs as [|h hs IH]; intros w.
  - constructor.
  - pose proof (handle_one_handled h w) as Hone.
    unfold trace_of, result_of in *. simpl. unfold bind.
    destruct (handle_one d update users chats parsed_update handler_type h w)
      as [[r1 w1] t1].
    simpl in Hone.
    specialize (IH w1).
    destruct Hone as [t0 Hpass | args t0 Hsel | args t0 Hsel | args t0 Hsel
                     | args t0 e routing r Hsel Hns Hnc Hroute Hr].
    + destruct (for_handlers d update users chats parsed_update handler_type hs w1)
        as [[r3 w3] t3].
      simpl in *. now apply scanned_pass.
    + destruct (for_handlers d update users chats parsed_update handler_type hs w1)
        as [[r3 w3] t3].
      simpl in *. rewrite <- app_assoc. simpl. now apply scanned_resume.
    + simpl. rewrite app_nil_r. now apply scanned_returned.
    + simpl. now apply scanned_stopped.
    + destruct r as [[]|x]; simpl.
      * congruence.
      * rewrite app_nil_r. now apply scanned_failed.
      * now apply scanned_failed.
Qed.

Lemma for_groups_toured : forall gs w,
  toured' gs
    (trace_of (for_groups d update users chats parsed_update handler_type gs) w)
    (result_of (for_groups d update users chats parsed_update handler_type gs) w).
Proof.
  induction gs as [|[key group] gs IH]; intros w.
  - constructor.
  - unfold trace_of, result_of in *. simpl. unfold bind, emit.
    pose proof (for_handlers_scanned group w) as Hscan.
    unfold trace_of, result_of in Hscan.
    destruct (for_handlers d update users chats parsed_update handler_type group w)
      as [[[[]|e] w1] t1]; simpl in *.
    + specialize (IH w1).
      destruct (for_groups d update users chats parsed_update handler_type gs w1)
        as [[r2 w2] t2].
      simpl in *. now apply toured_next.
    + now apply toured_raised.
Qed.

(** *** What the scan relation says about calls *)

Lemma calls_app : forall t t' : list (Event W), calls (t ++ t') = calls t ++ calls t'.
Proof.
  induction t as [|ev t IH]; intros t'; simpl; [reflexivity|].
  destruct ev; simpl; rewrite ?IH; reflexivity.
Qed.

Lemma visited_app : forall t t' : list (Event W),
  visited (t ++ t') = visited t ++ visited t'.
Proof.
  induction t as [|ev t IH]; intros t'; simpl; [reflexivity|].
  destruct ev; simpl; rewrite ?IH; reflexivity.
Qed.

Lemma routing_no_calls : forall t : list (Event W),
  Forall (@routing_event W) t -> calls t = [] /\ visited t = [].
Proof.
  induction 1 as [|ev t Hev _ IH]; [now split|].
  destruct ev; simpl in *; try contradiction; exact IH.
Qed.

Lemma selects_no_calls : forall h args (t0 : list (Event W)),
  selects' h args t0 -> calls t0 = [] /\ visited t0 = [].
Proof. intros h args t0 []; now split. Qed.

Lemma passes_no_calls : forall h (t0 : list (Event W)),
  passes' h t0 -> calls t0 = [] /\ visited t0 = [].
Proof. intros h t0 []; now split. Qed.

Lemma scanned_no_visit : forall hs (t : list (Event W)) r, scanned' hs t r -> visited t = [].
Proof.
  induction 1 as [|h hs t0 t r Hp _ IH|h hs args t0 t r Hs _ IH|h hs args t0 Hs
                 |h hs args t0 Hs|h hs args t0 e routing r Hs _ _ Hr];
    rewrite ?visited_app; simpl;
    try (destruct (passes_no_calls Hp) as [_ ->]);
    try (destruct (selects_no_calls Hs) as [_ ->]);
    try (destruct (routing_no_calls Hr) as [_ ->]); auto.
Qed.

Lemma scanned_calls : forall hs (t : list (Event W)) r,
  scanned' hs t r -> all_but_last_continue (calls t).
Proof.
  induction 1 as [|h hs t0 t r Hp _ IH|h hs args t0 t r Hs _ IH|h hs args t0 Hs
                 |h hs args t0 Hs|h hs args t0 e routing r Hs _ _ Hr];
    rewrite ?calls_app; simpl;
    try (destruct (passes_no_calls Hp) as [-> _]);
    try (destruct (selects_no_calls Hs) as [-> _]);
    try (destruct (routing_no_calls Hr) as [-> _]); simpl; auto.
  destruct (calls t); simpl; auto.
Qed.


Lemma split_calls_app_scan : forall hs (t t' : list (Event W)) r,
  scanned' hs t r ->
  split_calls (t ++ t') = (calls t ++ fst (split_calls t'), snd (split_calls t')).
Proof.
  intros hs t t' r Hs. apply scanned_no_visit in Hs.
  induction t as [|ev t IH]; simpl in *.
  - now destruct (split_calls t').
  - destruct ev; simpl in *; try discriminate; try (apply IH; assumption).
    rewrite IH by assumption. reflexivity.
Qed.

Lemma toured_calls_by_group : forall gs (t : list (Event W)) r,
  toured' gs t r ->
  fst (split_calls t) = [] /\
  Forall (fun kc => all_but_last_continue (snd kc)) (calls_by_group t).
Proof.
  unfold calls_by_group.
  induction 1 as [|key group gs t1 t2 r Hs _ [IH1 IH2]|key group gs t1 e Hs]; simpl.
  - split; constructor.
  - rewrite (split_calls_app_scan t2 Hs), IH1, app_nil_r. simpl.
    split; [reflexivity|]. constructor; [|exact IH2].
    simpl. apply (scanned_calls Hs).
  - pose proof (split_calls_app_scan [] Hs) as E. rewrite app_nil_r in E.
    rewrite E. simpl. rewrite app_nil_r.
    split; [reflexivity|]. constructor; [|constructor].
    simpl. apply (scanned_calls Hs).
Qed.

(** *** What the scan relation says about [StopPropagation] *)

Lemma after_stop_app : forall t t' : list (Event W),
  after_stop (t ++ t') =
  match after_stop t with
  | Some s => Some (s ++ t')
  | None => after_stop t'
  end.
Proof.
  induction t as [|ev t IH]; intros t'; simpl; [reflexivity|].
  destruct ev as [| | | | h m a [u|e] | |]; try apply IH.
  destruct e; try apply IH. reflexivity.
Qed.

Lemma after_stop_split : forall (t s pre post : list (Event W)) h m a,
  after_stop t = Some s ->
  after_stop s = None ->
  t = pre ++ EvCall h m a (Raise StopPropagation) :: post ->
  post = s.
Proof.
  intros t s pre; revert t; induction pre as [|ev pre IH];
    intros t post h m a Hs Hnone ->; simpl in Hs.
  - now injection Hs as <-.
  - destruct ev as [| | | | h' m' a' [u|e] | |];
      try (eapply IH; [exact Hs | exact Hnone | reflexivity]).
    destruct e; try (eapply IH; [exact Hs | exact Hnone | reflexivity]).
    injection Hs as <-. rewrite after_stop_app in Hnone. simpl in Hnone.
    destruct (after_stop pre); discriminate.
Qed.

Lemma after_stop_none_split : forall (pre post : list (Event W)) h m a,
  after_stop (pre ++ EvCall h m a (Raise StopPropagation) :: post) <> None.
Proof.
  intros. rewrite after_stop_app. simpl. destruct (after_stop pre); discriminate.
Qed.

Lemma routing_after_stop : forall t : list (Event W),
  Forall (@routing_event W) t -> after_stop t = None.
Proof.
  induction 1 as [|ev t Hev _ IH]; [reflexivity|].
  destruct ev; simpl in *; try contradiction; exact IH.
Qed.

Lemma selects_after_stop : forall h args (t0 : list (Event W)),
  selects' h args t0 -> after_stop t0 = None.
Proof. intros h args t0 []; reflexivity. Qed.

Lemma passes_after_stop : forall h (t0 : list (Event W)),
  passes' h t0 -> after_stop t0 = None.
Proof. intros h t0 []; reflexivity. Qed.

Lemma scanned_after_stop : forall hs (t : list (Event W)) r,
  scanned' hs t r ->
  after_stop t = None \/ (after_stop t = Some [] /\ r = Raise StopPropagation).
Proof.
  induction 1 as [|h hs t0 t r Hp _ IH|h hs args t0 t r Hs _ IH|h hs args t0 Hs
                 |h hs args t0 Hs|h hs args t0 e routing r Hs Hns _ Hr];
    rewrite ?after_stop_app;
    try rewrite (passes_after_stop Hp);
    try rewrite (selects_after_stop Hs); simpl; auto.
  left. destruct e; try (now apply routing_after_stop). congruence.
Qed.

Lemma toured_after_stop : forall gs (t : list (Event W)) r,
  toured' gs t r ->
  after_stop t = None \/ (after_stop t = Some [] /\ r = Raise StopPropagation).
Proof.
  induction 1 as [|key group gs t1 t2 r Hs _ IH|key group gs t1 e Hs]; simpl.
  - now left.
  - rewrite after_stop_app.
    destruct (scanned_after_stop Hs) as [-> | [_ H]]; [exact IH | discriminate].
  - exact (scanned_after_stop Hs).
Qed.

End DispatchFacts.

(** ** One packet *)
Section PacketFacts.

Context {W : Type}.
Implicit Types (d : Dispatcher W) (w : W).

(** The classifier step records nothing. *)
Lemma classify_trace : forall d update users chats w,
  trace_of (classify d update users chats) w = [].
Proof.
  intros. unfold trace_of, classify.
  destruct (update_parsers_get (utype update)) as [p|]; [|reflexivity].
  unfold run_parser.
  destruct (parse_object (client d) p update users chats w) as [[parsed|e] w1];
    reflexivity.
Qed.

(** The trace of one packet: nothing but a log line when the parser
    raises; otherwise the tour of the groups under the worker's lock, then
    what the outer [except] clauses log. *)
Lemma handle_packet_shape : forall d lock update users chats w,
  match result_of (classify d update users chats) w with
  | Ok (parsed, htype) =>
      exists body r tail,
        trace_of (handle_packet d lock (update, users, chats)) w
          = EvAcquire lock :: body ++ EvRelease lock :: tail /\
        toured update users chats parsed htype (groups d) body r /\
        Forall (@routing_event W) tail /\
        (r = Ok tt \/ r = Raise StopPropagation -> tail = [])
  | Raise e =>
      Forall (@routing_event W)
             (trace_of (handle_packet d lock (update, users, chats)) w)
  end.
Proof.
  intros d lock update users chats w.
  pose proof (classify_trace d update users chats w) as Ht.
  unfold result_of, trace_of, handle_packet, dispatch, with_lock in *.
  unfold bind, attempt, emit, lift, log_error, ret, raise.
  destruct (classify d update users chats w) as [[[[parsed htype]|e] w1] t0];
    simpl in Ht; subst t0; simpl.
  - pose proof (for_groups_toured d update users chats parsed htype (groups d) w1)
      as Htour.
    unfold result_of, trace_of in Htour.
    destruct (for_groups d update users chats parsed htype (groups d) w1)
      as [[r w2] body].
    simpl in Htour.
    exists body, r.
    destruct r as [[]|e]; simpl.
    + exists []. rewrite ?app_nil_r. repeat split; auto.
    + destruct (isinstance_exn e StopPropagation) eqn:Hstop; simpl.
      * exists []. rewrite ?app_nil_r. repeat split; auto.
      * rewrite isinstance_Exception. simpl.
        exists [EvLog e]. rewrite ?app_nil_r, <- ?app_assoc.
        repeat split; auto.
        -- repeat constructor.
        -- intros [H|H]; [discriminate|]. injection H as ->. discriminate.
  - destruct (isinstance_exn e StopPropagation); simpl; [constructor|].
    rewrite isinstance_Exception. simpl. repeat constructor.
Qed.

Lemma split_calls_inert : forall tail : list (Event W),
  calls tail = [] -> visited tail = [] -> split_calls tail = ([], []).
Proof.
  induction tail as [|ev tail IH]; simpl; intros Hc Hv; [reflexivity|].
  destruct ev; simpl in *; try discriminate; auto.
Qed.

Lemma split_calls_inert_tail : forall t tail : list (Event W),
  calls tail = [] -> visited tail = [] -> split_calls (t ++ tail) = split_calls t.
Proof.
  intros t tail Hc Hv. induction t as [|ev t IH]; simpl.
  - now apply split_calls_inert.
  - destruct ev; simpl; rewrite ?IH; reflexivity.
Qed.


Lemma is_raw_update_handler_class : forall h : Handler W,
  is_raw_update_handler h = true -> hclass h = RawUpdateHandler.
Proof.
  intros h. unfold is_raw_update_handler.
  destruct (HandlerClass_eq_dec (hclass h) RawUpdateHandler); [auto | discriminate].
Qed.



(** Group by group, all calls but the last ended with
    [ContinuePropagation]. *)
Lemma handle_packet_calls_by_group : forall d lock update users chats w,
  Forall (fun kc => all_but_last_continue (snd kc))
         (calls_by_group (trace_of (handle_packet d lock (update, users, chats)) w)).
Proof.
  intros d lock update users chats w.
  pose proof (handle_packet_shape d lock update users chats w) as Hshape.
  unfold calls_by_group.
  destruct (result_of (classify d update users chats) w) as [[parsed htype]|e].
  - destruct Hshape as (body & r & tail & -> & Htour & Htail & _).
    simpl. rewrite split_calls_inert_tail.
    + eapply toured_calls_by_group; eassumption.
    + simpl. now apply routing_no_calls.
    + simpl. now apply routing_no_calls.
  - destruct (routing_no_calls Hshape) as [Hc Hv].
    rewrite split_calls_inert by assumption. constructor.
Qed.

Lemma calls_split : forall t : list (Event W),
  calls t = fst (split_calls t) ++ concat (map snd (snd (split_calls t))).
Proof.
  induction t as [|ev t IH]; simpl; [reflexivity|].
  destruct ev; simpl; try exact IH;
    destruct (split_calls t) as [cur later]; simpl in *; now rewrite IH.
Qed.

Lemma all_but_last_continue_length :
  forall cs : list (Handler W * list Arg * Result unit),
    all_but_last_continue cs ->
    Forall (fun c => snd c <> Raise ContinuePropagation) cs ->
    length cs <= 1.
Proof.
  intros [|c [|c' cs]] Hall Hno; simpl; try lia.
  destruct Hall as [Hc _]. inversion Hno; subst. contradiction.
Qed.

(** When no call of the dispatch ended with [ContinuePropagation], every
    group got one call at most. *)
Lemma handle_packet_one_call_per_group : forall d lock update users chats w,
  Forall (fun c => snd c <> Raise ContinuePropagation)
         (calls (trace_of (handle_packet d lock (update, users, chats)) w)) ->
  Forall (fun kc => length (snd kc) <= 1)
         (calls_by_group (trace_of (handle_packet d lock (update, users, chats)) w)).
Proof.
  intros d lock update users chats w Hno.
  pose proof (handle_packet_calls_by_group d lock update users chats w) as Hall.
  rewrite calls_split in Hno. apply Forall_app in Hno. destruct Hno as [_ Hno].
  unfold calls_by_group in *.
  induction (snd (split_calls (trace_of (handle_packet d lock (update, users, chats)) w)))
    as [|kc later IH]; [constructor|].
  simpl in Hno. apply Forall_app in Hno. destruct Hno as [Hkc Hlater].
  inversion Hall; subst.
  constructor; [now apply all_but_last_continue_length | now apply IH].
Qed.

End PacketFacts.

Section DispatchClaims.

Context {W : Type}.
Implicit Types (d : Dispatcher W) (w : W).

(** C1.  In the dispatch of one packet, the calls made between one group
    visit and the next all ended with [ContinuePropagation], except
    possibly the last; when no call ended with that signal, every group got
    one call at most.
    And when the classifier step succeeded, what the worker records is the
    tour of the groups under its lock: each group scanned in insertion
    order, handlers passed over until one has the class that goes with the
    update and a check that returns true, or is a raw-update handler (taken
    without a check); that one is invoked, and the scan goes on with the
    next handler of the group only when the call ended with
    [ContinuePropagation]. *)
Theorem one_handler_per_group : forall d lock update users chats w,
  Forall (fun kc => all_but_last_continue (snd kc))
         (calls_by_group (trace_of (handle_packet d lock (update, users, chats)) w)) /\
  (Forall (fun c => snd c <> Raise ContinuePropagation)
          (calls (trace_of (handle_packet d lock (update, users, chats)) w)) ->
   Forall (fun kc => length (snd kc) <= 1)
          (calls_by_group (trace_of (handle_packet d lock (update, users, chats)) w))) /\
  (forall parsed htype,
     result_of (classify d update users chats) w = Ok (parsed, htype) ->
     exists body r tail,
       trace_of (handle_packet d lock (update, users, chats)) w
         = EvAcquire lock :: body ++ EvRelease lock :: tail /\
       toured update users chats parsed htype (groups d) body r /\
       Forall (@routing_event W) tail).
Proof.
  intros d lock update users chats w.
  pose proof (handle_packet_shape d lock update users chats w) as Hshape.
  split; [|split].
  - apply handle_packet_calls_by_group.
  - apply handle_packet_one_call_per_group.
  - intros parsed htype E. rewrite E in Hshape.
    destruct Hshape as (body & r & tail & Ht & Htour & Htail & _).
    exists body, r, tail. auto.
Qed.

(** C2.  Whenever a call in the dispatch of a packet ended with
    [StopPropagation], nothing follows it but the release of the worker's
    lock: no check, no call, no group visit, no error routing, no log line.
    The worker does not raise, and goes on with the rest of the queue. *)
Theorem stop_propagation_ends_dispatch :
  forall d lock packet queue w pre h mode args post,
    trace_of (handle_packet d lock packet) w
      = pre ++ EvCall h mode args (Raise StopPropagation) :: post ->
    post = [EvRelease lock] /\
    result_of (handle_packet d lock packet) w = Ok tt /\
    result_of (handler_worker d lock (Some packet :: queue)) w
      = result_of (handler_worker d lock queue)
                  (world_after (handle_packet d lock packet) w) /\
    trace_of (handler_worker d lock (Some packet :: queue)) w
      = trace_of (handle_packet d lock packet) w ++
        trace_of (handler_worker d lock queue)
                 (world_after (handle_packet d lock packet) w).
Proof.
  intros d lock [[update users] chats] queue w pre h mode args post Hsplit.
  pose proof (handle_packet_ok d lock (update, users, chats) w) as Hok.
  split; [|split; [exact Hok|]].
  - pose proof (handle_packet_shape d lock update users chats w) as Hshape.
    destruct (result_of (classify d update users chats) w) as [[parsed htype]|e].
    + destruct Hshape as (body & r & tail & Ht & Htour & Htail & Hr).
      assert (Hafter : after_stop (trace_of (handle_packet d lock (update, users, chats)) w)
                       = Some [EvRelease lock]).
      { assert (E : after_stop (trace_of (handle_packet d lock (update, users, chats)) w)
                    = after_stop (body ++ EvRelease lock :: tail))
          by (rewrite Ht; reflexivity).
        rewrite after_stop_app in E.
        destruct (toured_after_stop Htour) as [Hn | [Hs ->]].
        - exfalso. rewrite Hn in E. simpl in E.
          rewrite (routing_after_stop Htail), Hsplit in E.
          now apply after_stop_none_split in E.
        - rewrite Hs, Hr in E by auto. exact E. }
      eapply after_stop_split; [exact Hafter | reflexivity | exact Hsplit].
    + exfalso. apply routing_after_stop in Hshape. rewrite Hsplit in Hshape.
      now apply after_stop_none_split in Hshape.
  - unfold result_of, trace_of, world_after in *. simpl. unfold bind.
    destruct (handle_packet d lock (update, users, chats) w) as [[r1 w1] t1].
    simpl in Hok. subst r1. simpl.
    destruct (handler_worker d lock queue w1) as [[r2 w2] t2]. auto.
Qed.


End DispatchClaims.

(** C2 at work: the first handler of group 0 stops the propagation; the
    second handler of the group and the handler of group 1 are not reached. *)
Lemma stop_propagation_ends_dispatch_witness :
  [EvRelease (W:=unit) 0] = [EvRelease 0] /\
  result_of (handle_packet
               (Examples.register [(Examples.msg_stop 1, 0%Z); (Examples.msg_ok 2, 0%Z);
                                   (Examples.msg_ok 3, 1%Z)])
               0 Examples.new_message) tt = Ok tt.
Proof.
  destruct (@stop_propagation_ends_dispatch unit
              (Examples.register [(Examples.msg_stop 1, 0%Z); (Examples.msg_ok 2, 0%Z);
                                  (Examples.msg_ok 3, 1%Z)])
              0 Examples.new_message [] tt
              [EvAcquire 0; EvVisit 0%Z; EvCheck (Examples.msg_stop 1) (Ok true)]
              (Examples.msg_stop 1) Awaited [AParsed (Some 7)] [EvRelease 0])
    as (H1 & H2 & _).
  - vm_compute. reflexivity.
  - split; [exact H1 | exact H2].
Defined.


(** C1 at work: the first handler of group 0 continues the propagation,
    the second returns, the third is not reached. *)
Lemma one_handler_per_group_witness :
  exists body r tail,
    trace_of (handle_packet
                (Examples.register [(Examples.msg_continue 1, 0%Z); (Examples.msg_ok 2, 0%Z);
                                    (Examples.msg_ok 3, 0%Z)])
                0 Examples.new_message) tt
      = EvAcquire 0 :: body ++ EvRelease 0 :: tail /\
    toured {| utype := UpdateNewMessage; ubody := 7 |} [] [] (Some 7) (TClass MessageHandler)
           [(0%Z, [Examples.msg_continue 1; Examples.msg_ok 2; Examples.msg_ok 3])]
           body r /\
    Forall (@routing_event unit) tail.
Proof.
  apply (proj2 (proj2 (@one_handler_per_group unit
           (Examples.register [(Examples.msg_continue 1, 0%Z); (Examples.msg_ok 2, 0%Z);
                               (Examples.msg_ok 3, 0%Z)])
           0 {| utype := UpdateNewMessage; ubody := 7 |} [] [] tt))).
  reflexivity.
Defined.

(** ** Registering in sequence *)
Section AddAll.

Context {W : Type}.
Implicit Types (g : list (Z * list (Handler W))) (d : Dispatcher W)
         (ops : list (Handler W * Z)).







End AddAll.


(** ** Error routing with no handler for the exception *)
Section Unhandled.

Context {W : Type}.
Implicit Types (d : Dispatcher W) (w : W).






(** Removing a registered scoped error handler by naming it takes it out of
    [error_handlers], leaves [error_handler_coros] as it is, and raises
    [AttributeError]. *)
Lemma remove_error_handler_by_handler : forall d (h : Handler W) error index,
  list_index h (error_handlers d) = Some index ->
  fst (remove_error_handler (Some h) error d) = Raise AttributeError /\
  error_handlers (snd (remove_error_handler (Some h) error d))
    = list_pop index (error_handlers d) /\
  error_handler_coros (snd (remove_error_handler (Some h) error d))
    = error_handler_coros d.
Proof.
  intros d h error index Hi. unfold remove_error_handler.
  rewrite with_all_locks_result, with_all_locks_state.
  unfold remove_error_handler_body. simpl error_handlers. rewrite Hi.
  simpl. auto.
Qed.

End Unhandled.

(** C3, where the code departs from it.  A message handler of group 0
    raises [ValueError]; group 1 has another message handler.  With no
    error handler registered, the worker logs [AttributeError], not the
    exception of the handler, and group 1 never sees the update.  With a
    scoped handler for [ValueError] and no global one, the scoped handler is
    called, the exception is logged, and the dispatch goes on with group 1. *)
Theorem unhandled_exception_logs_attribute_error :
  trace_of (handle_packet
              (Examples.register [(Examples.msg_fails 1, 0%Z); (Examples.msg_ok 2, 1%Z)])
              0 Examples.new_message) tt
  = [ EvAcquire 0;
      EvVisit 0%Z;
      EvCheck (Examples.msg_fails 1) (Ok true);
      EvCall (Examples.msg_fails 1) Awaited [AParsed (Some 7)] (Raise ValueError);
      EvRelease 0;
      EvLog AttributeError ] /\
  trace_of (handle_packet
              (Examples.register [(Examples.msg_fails 1, 0%Z); (Examples.msg_ok 2, 1%Z);
                                  (Examples.on_value_error 3, 1%Z)])
              0 Examples.new_message) tt
  = [ EvAcquire 0;
      EvVisit 0%Z;
      EvCheck (Examples.msg_fails 1) (Ok true);
      EvCall (Examples.msg_fails 1) Awaited [AParsed (Some 7)] (Raise ValueError);
      EvErrorCall (Examples.on_value_error 3) Awaited
                  [AErr ValueError; AParsed (Some 7)] (Ok tt);
      EvLog ValueError;
      EvVisit 1%Z;
      EvCheck (Examples.msg_ok 2) (Ok true);
      EvCall (Examples.msg_ok 2) Awaited [AParsed (Some 7)] (Ok tt);
      EvRelease 0 ].
Proof. split; vm_compute; reflexivity. Qed.

(** C6, where the code departs from it.  One scoped error handler for
    [ValueError] is registered, with its coroutine flag.  Removing it by
    naming it, or by naming [ValueError], raises [AttributeError] once the
    handler is out of [error_handlers]; the flag stays in
    [error_handler_coros].  Removing the global handler works. *)
Theorem remove_error_handler_leaves_flag :
  let d := Examples.register [(Examples.on_value_error 1, 0%Z)] in
  let by_handler := remove_error_handler (Some (Examples.on_value_error 1)) None d in
  let by_error := remove_error_handler None (Some ValueError) d in
  let g := Examples.register [(Examples.on_any_error 2, 0%Z)] in
  (error_handlers d = [Examples.on_value_error 1] /\ error_handler_coros d = [true]) /\
  (fst by_handler = Raise AttributeError /\
   error_handlers (snd by_handler) = [] /\
   error_handler_coros (snd by_handler) = [true]) /\
  (fst by_error = Raise AttributeError /\
   error_handlers (snd by_error) = [] /\
   error_handler_coros (snd by_error) = [true]) /\
  (global_error_handler g = Some (Examples.on_any_error 2) /\
   fst (remove_error_handler None None g) = Ok tt /\
   global_error_handler (snd (remove_error_handler None None g)) = None /\
   global_error_handler_coro (snd (remove_error_handler None None g)) = None).
Proof. vm_compute. repeat split; reflexivity. Qed.

(** ** The lock protocol *)
Module LockFacts.

Import Locks.

Section Invariant.

Context {W : Type}.
Implicit Types (s : System (W:=W)) (d : Dispatcher W).

Lemma nth_error_set_nth : forall {A} (l : list A) i j x,
  nth_error (set_nth i x l) j =
  if Nat.eqb j i then option_map (fun _ => x) (nth_error l i) else nth_error l j.
Proof.
  induction l as [|y l IH]; intros i j x.
  - simpl. destruct (Nat.eqb j i); destruct i, j; reflexivity.
  - destruct i as [|i], j as [|j]; simpl; try reflexivity. apply IH.
Qed.

Lemma length_set_nth : forall {A} (l : list A) i x,
  length (set_nth i x l) = length l.
Proof.
  induction l as [|y l IH]; intros [|i] x; simpl; auto.
Qed.

Lemma nth_error_set_nth_same : forall {A} (l : list A) i x y,
  nth_error l i = Some y -> nth_error (set_nth i x l) i = Some x.
Proof.
  intros A l i x y H. now rewrite nth_error_set_nth, Nat.eqb_refl, H.
Qed.

Lemma nth_error_set_nth_other : forall {A} (l : list A) i j x,
  j <> i -> nth_error (set_nth i x l) j = nth_error l j.
Proof.
  intros A l i j x H. rewrite nth_error_set_nth.
  now destruct (Nat.eqb_spec j i).
Qed.

Lemma remove_error_loop_locks : forall error todo index d,
  locks_list (snd (remove_error_loop error index todo d)) = locks_list d.
Proof.
  intros error todo; induction todo as [|err rest IH]; intros index d; simpl.
  - reflexivity.
  - destruct (errors_contains error (errors err)) as [[]|e]; simpl; auto.
Qed.

(** No [try] block touches the locks. *)
Lemma try_block_locks : forall (m : Mutation (W:=W)) d,
  locks_list (snd (try_block m d)) = locks_list d.
Proof.
  intros [handler group | handler group | handler error] d; simpl.
  - unfold add_handler_body. cbv zeta.
    set (d1 := if dict_contains group (groups d) then d else _).
    assert (H1 : locks_list d1 = locks_list d).
    { unfold d1. now destruct (dict_contains group (groups d)). }
    set (d2 := if is_error_handler handler then _ else d1).
    assert (H2 : locks_list d2 = locks_list d1).
    { unfold d2. destruct (is_error_handler handler); [|reflexivity].
      now destruct (errors handler). }
    clearbody d2 d1.
    destruct (dict_get group (groups d2)); simpl; congruence.
  - unfold remove_handler_body.
    destruct (dict_contains group (groups d)); simpl; [|reflexivity].
    destruct (dict_get group (groups d)) as [l|]; simpl; [|reflexivity].
    destruct (list_remove handler l); reflexivity.
  - unfold remove_error_handler_body.
    destruct handler as [h|].
    + destruct (list_index h (error_handlers d)); reflexivity.
    + destruct error as [err|]; [apply remove_error_loop_locks | reflexivity].
Qed.

(** What holds in every reachable state, of the locks [L], the workers [P]
    and the registering tasks [T].  One lock per worker; a worker inside
    its block has its lock taken; a task has taken the locks it holds; no
    lock is held twice. *)
Definition inv (L : list bool) (P : list WorkerPC)
           (T : list (Mutation (W:=W) * TaskPC)) : Prop :=
  length P = length L /\
  (forall i, nth_error P i = Some Dispatching -> nth_error L i = Some true) /\
  (forall j m k, nth_error T j = Some (m, Acquiring k) -> k <= length L) /\
  (forall j m pc i, nth_error T j = Some (m, pc) ->
                    holds (length L) pc i -> nth_error L i = Some true) /\
  (forall i j m pc, nth_error P i = Some Dispatching ->
                    nth_error T j = Some (m, pc) ->
                    ~ holds (length L) pc i) /\
  (forall j j' m m' pc pc' i,
     j <> j' ->
     nth_error T j = Some (m, pc) ->
     nth_error T j' = Some (m', pc') ->
     holds (length L) pc i ->
     ~ holds (length L) pc' i) /\
  (forall i, nth_error L i = Some true ->
             nth_error P i = Some Dispatching \/
             exists j m pc, nth_error T j = Some (m, pc) /\ holds (length L) pc i).

Definition invariant s : Prop := inv (lock_state s) (worker_pcs s) (tasks s).

Lemma initial_invariant : forall s, initial s -> invariant s.
Proof.
  intros s (Hfree & Hlen & Hout & Hnew).
  rewrite Forall_forall in *.
  assert (Hpc : forall j m pc, nth_error (tasks s) j = Some (m, pc) -> pc = Acquiring 0).
  { intros j m pc H. apply nth_error_In in H. now apply Hnew in H. }
  repeat split.
  - exact Hlen.
  - intros i Hi. apply nth_error_In in Hi. now apply Hout in Hi.
  - intros j m k H. apply Hpc in H. injection H as ->. lia.
  - intros j m pc i H Hh. apply Hpc in H. subst pc. simpl in Hh. lia.
  - intros i j m pc _ H Hh. apply Hpc in H. subst pc. simpl in Hh. lia.
  - intros j j' m m' pc pc' i _ H _ Hh. apply Hpc in H. subst pc. simpl in Hh. lia.
  - intros i Hi. apply nth_error_In in Hi. apply Hfree in Hi. discriminate.
Qed.

(** Looking up a list after one position was set. *)
Ltac lookups :=
  repeat match goal with
  | H : context [nth_error (set_nth _ _ _) _] |- _ => rewrite nth_error_set_nth in H
  | |- context [nth_error (set_nth _ _ _) _] => rewrite nth_error_set_nth
  | H : context [length (set_nth _ _ _)] |- _ => rewrite length_set_nth in H
  | |- context [length (set_nth _ _ _)] => rewrite length_set_nth
  end.

Ltac by_position :=
  repeat match goal with
  | H : context [Nat.eqb ?a ?b] |- _ =>
      let E := fresh "E" in
      destruct (Nat.eqb a b) eqn:E;
      [apply Nat.eqb_eq in E; subst | apply Nat.eqb_neq in E]
  | |- context [Nat.eqb ?a ?b] =>
      let E := fresh "E" in
      destruct (Nat.eqb a b) eqn:E;
      [apply Nat.eqb_eq in E; subst | apply Nat.eqb_neq in E]
  end.

Lemma inv_worker_acquires : forall L P T i,
  inv L P T ->
  nth_error P i = Some Fetching ->
  nth_error L i = Some false ->
  inv (set_nth i true L) (set_nth i Dispatching P) T.
Proof.
  intros L P T i (HL & HA & HK & HB & HC & HD & HE) Hi Hfree.
  unfold inv. rewrite !length_set_nth. repeat split.
  - exact HL.
  - intros i' H. lookups. by_position.
    + now rewrite Hfree.
    + auto.
  - exact HK.
  - intros j m pc i' H Hh. lookups. by_position.
    + now rewrite Hfree.
    + eauto.
  - intros i' j m pc H Ht Hh. lookups. by_position.
    + specialize (HB _ _ _ _ Ht Hh). congruence.
    + eapply HC; eauto.
  - exact HD.
  - intros i' H. lookups. by_position.
    + left. now rewrite Hi.
    + exact (HE _ H).
Qed.

Lemma inv_worker_releases : forall L P T i,
  inv L P T ->
  nth_error P i = Some Dispatching ->
  inv (set_nth i false L) (set_nth i Fetching P) T.
Proof.
  intros L P T i (HL & HA & HK & HB & HC & HD & HE) Hi.
  unfold inv. rewrite !length_set_nth. repeat split.
  - exact HL.
  - intros i' H. lookups. by_position.
    + rewrite Hi in H. discriminate.
    + auto.
  - exact HK.
  - intros j m pc i' H Hh. lookups. by_position.
    + exfalso. eapply HC; eauto.
    + eauto.
  - intros i' j m pc H Ht Hh. lookups. by_position.
    + rewrite Hi in H. discriminate.
    + eapply HC; eauto.
  - exact HD.
  - intros i' H. lookups. by_position.
    + rewrite (HA _ Hi) in H. discriminate.
    + exact (HE _ H).
Qed.

Lemma inv_worker_stops : forall L P T i,
  inv L P T ->
  nth_error P i = Some Fetching ->
  inv L (set_nth i Stopped P) T.
Proof.
  intros L P T i (HL & HA & HK & HB & HC & HD & HE) Hi.
  unfold inv. rewrite !length_set_nth. repeat split; auto.
  - intros i' H. lookups. by_position; [rewrite Hi in H; discriminate | auto].
  - intros i' j m pc H Ht Hh. lookups. by_position.
    + rewrite Hi in H. discriminate.
    + eapply HC; eauto.
  - intros i' H. lookups. destruct (HE _ H) as [Hd | Ht]; [|now right].
    left. by_position; [congruence | exact Hd].
Qed.

Lemma nth_error_snoc : forall {A} (l : list A) x j y,
  nth_error (l ++ [x]) j = Some y ->
  nth_error l j = Some y \/ y = x.
Proof.
  intros A l x j y H.
  destruct (Nat.lt_ge_cases j (length l)) as [Hlt | Hge].
  - left. now rewrite nth_error_app1 in H.
  - right. rewrite nth_error_app2 in H by assumption.
    destruct (j - length l) as [|n]; simpl in H.
    + now injection H.
    + destruct n; discriminate.
Qed.

Lemma inv_task_created : forall L P T m,
  inv L P T -> inv L P (T ++ [(m, Acquiring 0)]).
Proof.
  intros L P T m (HL & HA & HK & HB & HC & HD & HE).
  unfold inv. repeat split; auto.
  - intros j m' k H. apply nth_error_snoc in H. destruct H as [H|H].
    + eauto.
    + injection H as _ ->. lia.
  - intros j m' pc i H Hh. apply nth_error_snoc in H. destruct H as [H|H].
    + eauto.
    + injection H as _ ->. simpl in Hh. lia.
  - intros i j m' pc Hi H Hh. apply nth_error_snoc in H. destruct H as [H|H].
    + eapply HC; eauto.
    + injection H as _ ->. simpl in Hh. lia.
  - intros j j' m1 m2 pc pc' i Hne H H' Hh Hh'.
    apply nth_error_snoc in H, H'.
    destruct H as [H|H]; [|injection H as _ ->; simpl in Hh; lia].
    destruct H' as [H'|H']; [|injection H' as _ ->; simpl in Hh'; lia].
    exact (HD _ _ _ _ _ _ i Hne H H' Hh Hh').
  - intros i H. destruct (HE _ H) as [Hd | (j & m' & pc & Ht & Hh)]; [now left|].
    right. exists j, m', pc. split; [|exact Hh].
    rewrite nth_error_app1; [exact Ht|]. apply nth_error_Some. congruence.
Qed.

Lemma inv_task_acquires : forall L P T j m k,
  inv L P T ->
  nth_error T j = Some (m, Acquiring k) ->
  nth_error L k = Some false ->
  inv (set_nth k true L) P (set_nth j (m, Acquiring (S k)) T).
Proof.
  intros L P T j m k (HL & HA & HK & HB & HC & HD & HE) Hj Hfree.
  assert (Hk : k < length L) by (apply nth_error_Some; congruence).
  unfold inv. rewrite !length_set_nth. repeat split.
  - exact HL.
  - intros i H. lookups. by_position; [now rewrite Hfree | auto].
  - intros j' m' k' H. lookups. by_position.
    + rewrite Hj in H. injection H as _ <-. lia.
    + eauto.
  - intros j' m' pc i H Hh. lookups. by_position; try (now rewrite Hfree).
    + rewrite Hj in H. injection H as _ <-. simpl in Hh.
      apply (HB _ _ _ _ Hj). simpl. lia.
    + eauto.
  - intros i j' m' pc Hi H Hh. lookups. by_position.
    + rewrite Hj in H. injection H as _ <-. simpl in Hh.
      destruct (Nat.eq_dec i k) as [->|Hne].
      * specialize (HA _ Hi). congruence.
      * apply (HC _ _ _ _ Hi Hj). simpl. lia.
    + eapply HC; eauto.
  - intros j1 j2 m1 m2 pc1 pc2 i Hne H1 H2 Hh1 Hh2. lookups. by_position.
    all: try congruence.
    all: try (rewrite Hj in H1; injection H1 as _ <-; simpl in Hh1).
    all: try (rewrite Hj in H2; injection H2 as _ <-; simpl in Hh2).
    all: first
      [ exact (HD _ _ _ _ _ _ i Hne H1 H2 Hh1 Hh2)
      | destruct (Nat.eq_dec i k) as [->|Hik];
        [ first [ specialize (HB _ _ _ _ H2 Hh2); congruence
                | specialize (HB _ _ _ _ H1 Hh1); congruence ]
        | first [ apply (HD _ _ _ _ _ _ i Hne Hj H2); [simpl; lia | exact Hh2]
                | apply (HD _ _ _ _ _ _ i Hne H1 Hj); [exact Hh1 | simpl; lia] ] ] ].
  - intros i H. lookups. by_position.
    + right. exists j, m, (Acquiring (S k)). split.
      * eapply nth_error_set_nth_same; eassumption.
      * simpl. lia.
    + destruct (HE _ H) as [Hd | (j' & m' & pc & Ht & Hh)]; [now left|]. right.
      destruct (Nat.eq_dec j' j) as [->|Hjj].
      * rewrite Hj in Ht. injection Ht as <- <-.
        exists j, m, (Acquiring (S k)). split.
        -- eapply nth_error_set_nth_same; eassumption.
        -- simpl in *. lia.
      * exists j', m', pc. split; [|exact Hh].
        now rewrite nth_error_set_nth_other.
Qed.

Lemma inv_task_mutates : forall L P T j m,
  inv L P T ->
  nth_error T j = Some (m, Acquiring (length L)) ->
  inv L P (set_nth j (m, Releasing 0) T).
Proof.
  intros L P T j m (HL & HA & HK & HB & HC & HD & HE) Hj.
  unfold inv. repeat split; auto.
  - intros j' m' k' H. lookups. by_position.
    + rewrite Hj in H. discriminate.
    + eauto.
  - intros j' m' pc i H Hh. lookups. by_position.
    + rewrite Hj in H. injection H as _ <-. simpl in Hh.
      apply (HB _ _ _ _ Hj). simpl. lia.
    + eauto.
  - intros i j' m' pc Hi H Hh. lookups. by_position.
    + rewrite Hj in H. injection H as _ <-. simpl in Hh.
      apply (HC _ _ _ _ Hi Hj). simpl. lia.
    + eapply HC; eauto.
  - intros j1 j2 m1 m2 pc1 pc2 i Hne H1 H2 Hh1 Hh2. lookups. by_position.
    all: try congruence.
    all: try (rewrite Hj in H1; injection H1 as _ <-; simpl in Hh1).
    all: try (rewrite Hj in H2; injection H2 as _ <-; simpl in Hh2).
    all: first
      [ exact (HD _ _ _ _ _ _ i Hne H1 H2 Hh1 Hh2)
      | apply (HD _ _ _ _ _ _ i Hne Hj H2); [simpl; lia | exact Hh2]
      | apply (HD _ _ _ _ _ _ i Hne H1 Hj); [exact Hh1 | simpl; lia] ].
  - intros i H. destruct (HE _ H) as [Hd | (j' & m' & pc & Ht & Hh)]; [now left|].
    right. destruct (Nat.eq_dec j' j) as [->|Hjj].
    + rewrite Hj in Ht. injection Ht as <- <-.
      exists j, m, (Releasing 0). split.
      * eapply nth_error_set_nth_same; eassumption.
      * simpl in *. lia.
    + exists j', m', pc. split; [|exact Hh].
      now rewrite nth_error_set_nth_other.
Qed.

Lemma inv_task_releases : forall L P T j m k,
  inv L P T ->
  nth_error T j = Some (m, Releasing k) ->
  k < length L ->
  inv (set_nth k false L) P (set_nth j (m, Releasing (S k)) T).
Proof.
  intros L P T j m k (HL & HA & HK & HB & HC & HD & HE) Hj Hk.
  assert (Hown : holds (length L) (Releasing k) k) by (simpl; lia).
  unfold inv. rewrite !length_set_nth. repeat split.
  - exact HL.
  - intros i H. lookups. by_position.
    + exfalso. exact (HC _ _ _ _ H Hj Hown).
    + auto.
  - intros j' m' k' H. lookups. by_position.
    + rewrite Hj in H. discriminate.
    + eauto.
  - intros j' m' pc i H Hh. lookups. by_position.
    + rewrite Hj in H. injection H as _ <-. simpl in Hh. lia.
    + rewrite Hj in H. injection H as _ <-. simpl in Hh.
      apply (HB _ _ _ _ Hj). simpl. lia.
    + exfalso. exact (HD _ _ _ _ _ _ _ E H Hj Hh Hown).
    + eauto.
  - intros i j' m' pc Hi H Hh. lookups. by_position.
    + rewrite Hj in H. injection H as _ <-. simpl in Hh.
      apply (HC _ _ _ _ Hi Hj). simpl. lia.
    + eapply HC; eauto.
  - intros j1 j2 m1 m2 pc1 pc2 i Hne H1 H2 Hh1 Hh2. lookups. by_position.
    all: try congruence.
    all: try (rewrite Hj in H1; injection H1 as _ <-; simpl in Hh1).
    all: try (rewrite Hj in H2; injection H2 as _ <-; simpl in Hh2).
    all: first
      [ exact (HD _ _ _ _ _ _ i Hne H1 H2 Hh1 Hh2)
      | apply (HD _ _ _ _ _ _ i Hne Hj H2); [simpl; lia | exact Hh2]
      | apply (HD _ _ _ _ _ _ i Hne H1 Hj); [exact Hh1 | simpl; lia] ].
  - intros i H. lookups. by_position; [destruct (nth_error L k); discriminate|].
    destruct (HE _ H) as [Hd | (j' & m' & pc & Ht & Hh)]; [now left|]. right.
    destruct (Nat.eq_dec j' j) as [->|Hjj].
    + rewrite Hj in Ht. injection Ht as <- <-.
      exists j, m, (Releasing (S k)). split.
      * eapply nth_error_set_nth_same; eassumption.
      * simpl in *. lia.
    + exists j', m', pc. split; [|exact Hh].
      now rewrite nth_error_set_nth_other.
Qed.

Lemma inv_task_finishes : forall L P T j m,
  inv L P T ->
  nth_error T j = Some (m, Releasing (length L)) ->
  inv L P (set_nth j (m, Finished) T).
Proof.
  intros L P T j m (HL & HA & HK & HB & HC & HD & HE) Hj.
  unfold inv. repeat split; auto.
  - intros j' m' k' H. lookups. by_position.
    + rewrite Hj in H. discriminate.
    + eauto.
  - intros j' m' pc i H Hh. lookups. by_position.
    + rewrite Hj in H. injection H as _ <-. contradiction.
    + eauto.
  - intros i j' m' pc Hi H Hh. lookups. by_position.
    + rewrite Hj in H. injection H as _ <-. contradiction.
    + eapply HC; eauto.
  - intros j1 j2 m1 m2 pc1 pc2 i Hne H1 H2 Hh1 Hh2. lookups. by_position.
    all: try congruence.
    all: try (rewrite Hj in H1; injection H1 as _ <-; contradiction).
    all: try (rewrite Hj in H2; injection H2 as _ <-; contradiction).
    exact (HD _ _ _ _ _ _ i Hne H1 H2 Hh1 Hh2).
  - intros i H. destruct (HE _ H) as [Hd | (j' & m' & pc & Ht & Hh)]; [now left|].
    right. destruct (Nat.eq_dec j' j) as [->|Hjj].
    + rewrite Hj in Ht. injection Ht as <- <-. simpl in Hh. lia.
    + exists j', m', pc. split; [|exact Hh].
      now rewrite nth_error_set_nth_other.
Qed.

(** Every step keeps the invariant. *)
Lemma step_invariant : forall s s', invariant s -> step s s' -> invariant s'.
Proof.
  intros s s' Hinv Hstep. unfold invariant in *.
  destruct Hstep as [i Hi Hfree | i Hi | i Hi | m | j m k Hj Hfree | j m Hj
                    | j m k Hj Hk | j m Hj];
    unfold lock_state, with_lock_flag in *; simpl.
  - now apply inv_worker_acquires.
  - now apply inv_worker_releases.
  - now apply inv_worker_stops.
  - now apply inv_task_created.
  - now apply inv_task_acquires.
  - rewrite try_block_locks. now apply inv_task_mutates.
  - now apply inv_task_releases.
  - now apply inv_task_finishes.
Qed.

Lemma reachable_invariant : forall s, reachable s -> invariant s.
Proof.
  induction 1 as [s Hinit | s s' _ IH Hstep].
  - now apply initial_invariant.
  - eapply step_invariant; eassumption.
Qed.

(** A task at its [try] block holds every lock, and no worker is inside
    its [async with lock]. *)
Lemma try_block_alone : forall s j m,
  invariant s ->
  nth_error (tasks s) j = Some (m, Acquiring (length (lock_state s))) ->
  Forall (fun b => b = true) (lock_state s) /\
  Forall (fun pc => pc <> Dispatching) (worker_pcs s).
Proof.
  intros s j m (HL & HA & HK & HB & HC & HD & HE) Hj. split.
  - apply Forall_forall. intros b Hb.
    destruct (In_nth_error _ _ Hb) as [i Hi].
    assert (Hlt : i < length (lock_state s)) by (apply nth_error_Some; congruence).
    specialize (HB _ _ _ i Hj Hlt). congruence.
  - apply Forall_forall. intros pc Hpc ->.
    destruct (In_nth_error _ _ Hpc) as [i Hi].
    assert (Hlt : i < length (lock_state s)).
    { rewrite <- HL. apply nth_error_Some. congruence. }
    exact (HC _ _ _ _ Hi Hj Hlt).
Qed.

(** A step made while a worker is inside its block leaves the registry as
    it is. *)
Lemma step_registry : forall s s' i,
  invariant s ->
  nth_error (worker_pcs s) i = Some Dispatching ->
  step s s' ->
  registry (disp s') = registry (disp s).
Proof.
  intros s s' i Hinv Hi Hstep.
  destruct Hstep as [i' Hi' Hfree | i' Hi' | i' Hi' | m | j m k Hj Hfree | j m Hj
                    | j m k Hj Hk | j m Hj]; try reflexivity.
  exfalso. destruct (try_block_alone _ Hinv Hj) as [_ Hout].
  rewrite Forall_forall in Hout. apply nth_error_In in Hi.
  now apply Hout in Hi.
Qed.

Lemma dispatching_run_registry : forall s s' i,
  reachable s ->
  dispatching_run i s s' ->
  registry (disp s') = registry (disp s).
Proof.
  intros s s' i Hreach Hrun.
  induction Hrun as [s | s s1 s2 Hi Hstep _ IH].
  - reflexivity.
  - rewrite IH by (eapply reachable_step; eassumption).
    eapply step_registry; eauto using reachable_invariant.
Qed.

Lemma set_nth_changes : forall {A} (l : list A) i x y,
  nth_error l i = Some y -> x <> y -> set_nth i x l <> l.
Proof.
  intros A l i x y Hy Hne Heq.
  pose proof (nth_error_set_nth_same l i x Hy) as H.
  rewrite Heq, Hy in H. congruence.
Qed.

(** A step of a worker changes the flag of no lock but its own. *)
Lemma worker_step_own_lock : forall s s' k,
  step s s' ->
  tasks s' = tasks s ->
  nth_error (lock_state s') k <> nth_error (lock_state s) k ->
  nth_error (worker_pcs s') k <> nth_error (worker_pcs s) k.
Proof.
  intros s s' k Hstep Htasks Hlock.
  destruct Hstep as [i Hi Hfree | i Hi | i Hi | m | j m k' Hj Hfree | j m Hj
                    | j m k' Hj Hk | j m Hj];
    unfold with_lock_flag in *; unfold lock_state in *; simpl in *.
  - rewrite nth_error_set_nth in Hlock. rewrite nth_error_set_nth.
    destruct (Nat.eqb_spec k i); [subst k|congruence].
    rewrite Hi. simpl. congruence.
  - rewrite nth_error_set_nth in Hlock. rewrite nth_error_set_nth.
    destruct (Nat.eqb_spec k i); [subst k|congruence].
    rewrite Hi. simpl. congruence.
  - congruence.
  - exfalso. apply (f_equal (@length _)) in Htasks.
    rewrite length_app in Htasks. simpl in Htasks. lia.
  - exfalso. revert Htasks. eapply set_nth_changes; [exact Hj|].
    intros H. injection H. lia.
  - exfalso. revert Htasks. eapply set_nth_changes; [exact Hj|]. discriminate.
  - exfalso. revert Htasks. eapply set_nth_changes; [exact Hj|].
    intros H. injection H. lia.
  - exfalso. revert Htasks. eapply set_nth_changes; [exact Hj|]. discriminate.
Qed.

(** With no worker inside its block and every task finished or not yet
    begun, every lock is free. *)
Lemma locks_free_at_rest : forall s,
  invariant s ->
  (forall j m pc, nth_error (tasks s) j = Some (m, pc) ->
                  pc = Finished \/ pc = Acquiring 0) ->
  Forall (fun pc => pc <> Dispatching) (worker_pcs s) ->
  Forall (fun b => b = false) (lock_state s).
Proof.
  intros s (HL & HA & HK & HB & HC & HD & HE) Hrest Hout.
  rewrite Forall_forall in *. intros [|] Hb; [exfalso | reflexivity].
  destruct (In_nth_error _ _ Hb) as [i Hi].
  destruct (HE _ Hi) as [Hd | (j & m & pc & Ht & Hh)].
  - apply nth_error_In in Hd. now apply Hout in Hd.
  - destruct (Hrest _ _ _ Ht) as [-> | ->]; simpl in Hh; lia.
Qed.

(** [start()] appends one free lock per worker, and the worker tasks it
    creates are given these locks, in order. *)
Lemma start_loop_locks : forall n d,
  locks_list (start_loop n d) = locks_list d ++ repeat false n /\
  handler_worker_tasks (start_loop n d)
    = handler_worker_tasks d ++ seq (length (locks_list d)) n.
Proof.
  induction n as [|n IH]; intros d; simpl.
  - now rewrite !app_nil_r.
  - destruct (IH (set_tasks (set_locks d (locks_list d ++ [false]))
                    (handler_worker_tasks d ++ [length (locks_list d ++ [false]) - 1])))
      as [H1 H2].
    rewrite H1, H2. simpl. rewrite !length_app. simpl.
    rewrite <- !app_assoc. simpl.
    replace (length (locks_list d) + 1 - 1) with (length (locks_list d)) by lia.
    replace (length (locks_list d) + 1) with (S (length (locks_list d))) by lia.
    split; reflexivity.
Qed.

Lemma started_initial : forall d,
  Forall (fun b => b = false) (locks_list d) -> initial (started d).
Proof.
  intros d Hfree. unfold initial, started, lock_state. simpl.
  assert (Hs : Forall (fun b => b = false) (locks_list (start d))).
  { unfold start. destruct (negb (no_updates (client d))); [|exact Hfree].
    destruct (start_loop_locks (workers (client d)) d) as [-> _].
    apply Forall_app. split; [exact Hfree|].
    apply Forall_forall. intros b Hb. now apply repeat_spec in Hb. }
  repeat split.
  - exact Hs.
  - apply length_map.
  - apply Forall_forall. intros pc Hpc. apply in_map_iff in Hpc.
    destruct Hpc as (b & <- & _). discriminate.
  - constructor.
Qed.

(** C9.  In every state the tasks can reach from [start()]:
    a registering task that is at its [try] block has every lock taken, and
    no worker is inside its [async with lock]; a worker inside its block has
    its own lock taken, and no registering task holds that lock; whatever
    the other tasks do while a worker stays inside its block, the groups,
    the scoped error handlers with their flags and the global slot do not
    change; a step of a worker changes the flag of its own lock only; and
    once every registering task is finished (or has not begun) and no
    worker is inside its block, every lock is free again. *)
Theorem mutation_excludes_dispatch : forall s,
  reachable s ->
  (forall j m,
     nth_error (tasks s) j = Some (m, Acquiring (length (lock_state s))) ->
     Forall (fun b => b = true) (lock_state s) /\
     Forall (fun pc => pc <> Dispatching) (worker_pcs s)) /\
  (forall i,
     nth_error (worker_pcs s) i = Some Dispatching ->
     nth_error (lock_state s) i = Some true /\
     forall j m pc, nth_error (tasks s) j = Some (m, pc) ->
                    ~ holds (length (lock_state s)) pc i) /\
  (forall i s', dispatching_run i s s' -> registry (disp s') = registry (disp s)) /\
  (forall s' k,
     step s s' -> tasks s' = tasks s ->
     nth_error (lock_state s') k <> nth_error (lock_state s) k ->
     nth_error (worker_pcs s') k <> nth_error (worker_pcs s) k) /\
  ((forall j m pc, nth_error (tasks s) j = Some (m, pc) ->
                   pc = Finished \/ pc = Acquiring 0) ->
   Forall (fun pc => pc <> Dispatching) (worker_pcs s) ->
   Forall (fun b => b = false) (lock_state s)).
Proof.
  intros s Hreach. pose proof (reachable_invariant Hreach) as Hinv.
  split; [|split; [|split; [|split]]].
  - intros j m Hj. eapply try_block_alone; eassumption.
  - intros i Hi. destruct Hinv as (HL & HA & HK & HB & HC & HD & HE). split.
    + now apply HA.
    + intros j m pc Ht. eapply HC; eassumption.
  - intros i s' Hrun. eapply dispatching_run_registry; eassumption.
  - intros s' k. apply worker_step_own_lock.
  - now apply locks_free_at_rest.
Qed.

End Invariant.

End LockFacts.

(** C9 at work: one worker; a registering task is created and takes the
    lock, which puts it at its [try] block. *)
Lemma mutation_excludes_dispatch_witness :
  Forall (fun b => b = true) (Locks.lock_state Examples.registering) /\
  Forall (fun pc => pc <> Locks.Dispatching) (Locks.worker_pcs Examples.registering).
Proof.
  assert (Hreach : Locks.reachable Examples.registering).
  { apply (Locks.reachable_step (s := Examples.created)).
    - apply (Locks.reachable_step (s := Examples.booted)).
      + apply Locks.reachable_initial.
        apply (LockFacts.started_initial
                 (Examples.register [(Examples.msg_ok 1, 0%Z)])).
        constructor.
      + exact (Locks.task_created Examples.booted
                 (Locks.AddHandler (Examples.msg_ok 2) 0%Z)).
    - exact (@Locks.task_acquires unit Examples.created 0
               (Locks.AddHandler (Examples.msg_ok 2) 0%Z) 0 eq_refl eq_refl). }
  apply (proj1 (LockFacts.mutation_excludes_dispatch Hreach) 0
               (Locks.AddHandler (Examples.msg_ok 2) 0%Z)).
  reflexivity.
Defined.

(** C10 at work: a scoped error handler registered in group 1 and removed
    from it with [remove_handler] is still called when a handler fails. *)
Example removed_error_handler_still_called :
  let d := Examples.register [(Examples.msg_fails 1, 0%Z);
                              (Examples.on_value_error 3, 1%Z)] in
  let d' := snd (remove_handler (Examples.on_value_error 3) 1 d) in
  dict_get 1%Z (groups d') = Some [] /\
  error_calls (trace_of (handle_packet d' 0 Examples.new_message) tt)
    = [Examples.on_value_error 3].
Proof. vm_compute. split; reflexivity. Qed.

(** * More of the dispatcher *)

(** ** The classifier table *)
Section ParserTable.

(** The keys of [update_parsers] are distinct: the comprehension that
    flattens the tuples overwrites no entry. *)
Lemma update_parsers_keys_distinct : NoDup (map fst update_parsers).
Proof.
  repeat (constructor; [simpl; intuition discriminate|]). constructor.
Qed.

(** X1.  The flattened table maps a class to a parser exactly when the class is
    a member of the tuple written for that parser in [__init__]; the
    sixteen imported classes all have a parser and no other class has. *)
Theorem update_parsers_lookup : forall t p,
  (update_parsers_get t = Some p <->
   exists key_tuple, In (key_tuple, p) update_parsers_by_tuple /\ In t key_tuple) /\
  length update_parsers = 16 /\
  ((exists n, t = UpdateOther n) <-> update_parsers_get t = None).
Proof.
  intros t p. split; [|split; [reflexivity|]].
  - split.
    + intros H. destruct t; vm_compute in H; try discriminate H;
        injection H as <-; eexists;
        (split; [simpl; repeat (first [left; reflexivity | right])
                | simpl; auto 6]).
    + intros (key_tuple & Hin & Ht). simpl in Hin.
      repeat (destruct Hin as [Hin|Hin];
              [injection Hin as <- <-; simpl in Ht;
               repeat (destruct Ht as [<-|Ht]; [reflexivity|]); contradiction|]).
      contradiction.
  - split.
    + intros [n ->]. reflexivity.
    + intros H. destruct t; try (vm_compute in H; discriminate H). eauto.
Qed.

End ParserTable.

(** ** Starting and stopping *)
Section Lifecycle.

Context {W : Type}.
Implicit Types (d : Dispatcher W) (w : W).

Lemma start_loop_frame : forall n d,
  client (start_loop n d) = client d /\
  updates_queue (start_loop n d) = updates_queue d /\
  Locks.registry (start_loop n d) = Locks.registry d.
Proof.
  induction n as [|n IH]; intros d; simpl; [auto|].
  destruct (IH (set_tasks (set_locks d (locks_list d ++ [false]))
                  (handler_worker_tasks d ++ [length (locks_list d ++ [false]) - 1])))
    as (H1 & H2 & H3).
  rewrite H1, H2, H3. auto.
Qed.

(** X2.  [start()] with updates enabled appends one free lock per configured
    worker and one worker task per lock, the task of the [i]-th new lock
    being given that lock; the locks and tasks already there stay (a second
    [start()] adds to them).  The queue and the registry are not touched.
    With updates disabled [start()] changes nothing. *)
Theorem start_creates_workers : forall d,
  if no_updates (client d) then start d = d
  else
    locks_list (start d) = locks_list d ++ repeat false (workers (client d)) /\
    handler_worker_tasks (start d)
      = handler_worker_tasks d ++ seq (length (locks_list d)) (workers (client d)) /\
    updates_queue (start d) = updates_queue d /\
    Locks.registry (start d) = Locks.registry d /\
    (forall i, i < workers (client d) ->
       nth_error (handler_worker_tasks (start d)) (length (handler_worker_tasks d) + i)
         = Some (length (locks_list d) + i) /\
       nth_error (locks_list (start d)) (length (locks_list d) + i) = Some false).
Proof.
  intros d. unfold start. destruct (no_updates (client d)); simpl; [reflexivity|].
  destruct (LockFacts.start_loop_locks (workers (client d)) d) as [HL HT].
  destruct (start_loop_frame (workers (client d)) d) as (_ & HQ & HR).
  repeat split; try assumption.
  - rewrite HT, nth_error_app2 by lia.
    replace (length (handler_worker_tasks d) + i - length (handler_worker_tasks d))
      with i by lia.
    rewrite nth_error_nth' with (d := 0) by now rewrite length_seq.
    now rewrite seq_nth.
  - rewrite HL, nth_error_app2 by lia.
    replace (length (locks_list d) + i - length (locks_list d)) with i by lia.
    rewrite nth_error_nth' with (d := false) by now rewrite repeat_length.
    now rewrite nth_repeat.
Qed.

(** A worker that finds no sentinel is left waiting in [get()]. *)
Lemma handler_worker_waits : forall d lock q w,
  sentinels q = 0 -> result_of (handler_worker d lock q) w = Ok Waiting.
Proof.
  intros d lock q; induction q as [|[p|] q IH]; simpl; intros w Hs.
  - reflexivity.
  - pose proof (handle_packet_ok d lock p w) as Hok.
    unfold result_of, bind in *.
    destruct (handle_packet d lock p w) as [[r w1] t1]. simpl in Hok. subst r.
    specialize (IH w1 Hs).
    destruct (handler_worker d lock q w1) as [[r2 w2] t2]. simpl in *. exact IH.
  - discriminate.
Qed.

Lemma join_workers_stuck : forall tasks d w,
  sentinels (updates_queue d) < length tasks ->
  result_of (join_workers d tasks) w = Ok None.
Proof.
  induction tasks as [|lock tasks IH]; simpl; intros d w Hn; [lia|].
  destruct (Nat.eq_dec (sentinels (updates_queue d)) 0) as [Hz | Hnz].
  - pose proof (handler_worker_waits d lock (updates_queue d) w Hz) as Hw.
    unfold result_of, bind in *.
    destruct (handler_worker d lock (updates_queue d) w) as [[r w1] t1].
    simpl in Hw. subst r. reflexivity.
  - destruct (handler_worker_exits d lock (updates_queue d) w) as (rest & Hr & Hs);
      [lia|].
    unfold result_of, bind in *.
    destruct (handler_worker d lock (updates_queue d) w) as [[r w1] t1].
    simpl in Hr. subst r.
    specialize (IH (set_queue d rest) w1).
    destruct (join_workers (set_queue d rest) tasks w1) as [[r2 w2] t2].
    simpl in *. apply IH. lia.
Qed.

(** X3.  [stop()] puts one sentinel per configured worker on the queue and then
    awaits every worker task.  When there are more worker tasks than
    sentinels (after a second [start()], for one), a worker is left waiting
    in [get()], the [await] does not return, and neither the tasks nor the
    groups are cleared. *)
Theorem stop_waits_for_missing_sentinel : forall d w,
  no_updates (client d) = false ->
  sentinels (updates_queue d) + workers (client d) < length (handler_worker_tasks d) ->
  result_of (stop d) w = Ok None.
Proof.
  intros d w Hupd Hlen. unfold stop. rewrite Hupd. simpl negb. cbv iota.
  set (d1 := set_queue d _).
  pose proof (join_workers_stuck (handler_worker_tasks d1) d1 w) as Hstuck.
  unfold result_of, bind in *.
  destruct (join_workers d1 (handler_worker_tasks d1) w) as [[r w1] t1].
  simpl in Hstuck. rewrite Hstuck; [reflexivity|].
  unfold d1. simpl. rewrite sentinels_app, sentinels_repeat. lia.
Qed.

End Lifecycle.

(** Two calls of [start()] with one configured worker, then [stop()]. *)
Lemma stop_waits_for_missing_sentinel_witness :
  result_of (stop (start (start (Examples.register [(Examples.msg_ok 1, 0%Z)])))) tt
    = Ok None.
Proof.
  apply (@stop_waits_for_missing_sentinel unit
           (start (start (Examples.register [(Examples.msg_ok 1, 0%Z)]))) tt).
  - reflexivity.
  - vm_compute. lia.
Defined.

(** ** The worker and its queue *)
Section WorkerQueue.

Context {W : Type}.
Implicit Types (d : Dispatcher W) (w : W).

Lemma handler_worker_app : forall d lock ps q w,
  handler_worker d lock (map Some ps ++ q) w =
  let '(_, w1, t1) := handler_worker d lock (map Some ps) w in
  let '(r, w2, t2) := handler_worker d lock q w1 in
  (r, w2, t1 ++ t2).
Proof.
  intros d lock ps q; induction ps as [|p ps IH]; intros w; simpl.
  - now destruct (handler_worker d lock q w) as [[r w2] t2].
  - pose proof (handle_packet_ok d lock p w) as Hok.
    unfold result_of, bind in *.
    destruct (handle_packet d lock p w) as [[r0 w1] t1]. simpl in Hok. subst r0.
    rewrite IH.
    destruct (handler_worker d lock (map Some ps) w1) as [[r1 w2] t2].
    destruct (handler_worker d lock q w2) as [[r3 w3] t3].
    now rewrite app_assoc.
Qed.

(** X5.  The worker handles the packets that precede the first sentinel, in the
    order of the queue and each from the world the one before left; it
    leaves its loop at the sentinel without raising, whatever the handlers
    did, and what follows the sentinel stays on the queue, unhandled.
    Without a sentinel it ends up waiting. *)
Theorem handler_worker_fifo : forall d lock ps ps' p rest w,
  result_of (handler_worker d lock (map Some ps ++ None :: rest)) w = Ok (Exited rest) /\
  trace_of (handler_worker d lock (map Some ps ++ None :: rest)) w
    = trace_of (handler_worker d lock (map Some ps)) w /\
  result_of (handler_worker d lock (map Some ps)) w = Ok Waiting /\
  trace_of (handler_worker d lock (map Some (ps ++ ps'))) w
    = trace_of (handler_worker d lock (map Some ps)) w ++
      trace_of (handler_worker d lock (map Some ps'))
               (world_after (handler_worker d lock (map Some ps)) w) /\
  trace_of (handler_worker d lock (map Some (ps ++ [p]))) w
    = trace_of (handler_worker d lock (map Some ps)) w ++
      trace_of (handle_packet d lock p)
               (world_after (handler_worker d lock (map Some ps)) w).
Proof.
  intros d lock ps ps' p rest w.
  assert (Hwait : forall qs, sentinels (map (@Some Packet) qs) = 0).
  { induction qs; simpl; auto. }
  pose proof (handler_worker_waits d lock (map Some ps) w (Hwait ps)) as Hw.
  pose proof (handler_worker_app d lock ps (None :: rest) w) as Hs.
  pose proof (handler_worker_app d lock ps (map Some ps') w) as Ha.
  pose proof (handler_worker_app d lock ps [Some p] w) as Hp.
  rewrite <- map_app in Ha.
  change [Some p] with (map Some [p]) in Hp at 1. rewrite <- map_app in Hp.
  unfold result_of, trace_of, world_after in *.
  rewrite Hs, Ha, Hp.
  destruct (handler_worker d lock (map Some ps) w) as [[r1 w1] t1]. simpl in *.
  repeat split.
  - now rewrite app_nil_r.
  - exact Hw.
  - now destruct (handler_worker d lock (map Some ps') w1) as [[r2 w2] t2].
  - unfold bind.
    destruct (handle_packet d lock p w1) as [[[u|e] w2] t2]; simpl;
      now rewrite ?app_nil_r.
Qed.

End WorkerQueue.

(** ** One packet, from the parser to the release of the lock *)
Section PacketPaths.

Context {W : Type}.
Implicit Types (d : Dispatcher W) (w : W).

(** X6.  When the parsing function of the update's class raises, the packet is
    dropped: the worker takes no lock, checks and calls no handler, logs the
    exception (nothing at all for [StopPropagation]) and does not raise. *)
Theorem parser_failure_drops_packet : forall d lock update users chats w p e w1,
  update_parsers_get (utype update) = Some p ->
  parse_object (client d) p update users chats w = (Raise e, w1) ->
  handle_packet d lock (update, users, chats) w
    = (Ok tt, w1, if isinstance_exn e StopPropagation then [] else [EvLog e]).
Proof.
  intros d lock update users chats w p e w1 Hp He.
  unfold handle_packet, dispatch, classify, run_parser, bind, attempt.
  rewrite Hp, He. simpl.
  destruct (isinstance_exn e StopPropagation); [reflexivity|].
  now rewrite isinstance_Exception.
Qed.

(** The events that take or release a lock. *)
Definition lock_event (ev : Event W) : Prop :=
  match ev with
  | EvAcquire _ | EvRelease _ => True
  | _ => False
  end.

Lemma scanned_no_lock_event :
  forall update users chats parsed htype hs (t : list (Event W)) r,
    scanned update users chats parsed htype hs t r ->
    Forall (fun ev => ~ lock_event ev) t.
Proof.
  intros update users chats parsed htype hs t r.
  assert (Hsel : forall h args (t0 : list (Event W)),
            selects update users chats parsed htype h args t0 ->
            Forall (fun ev => ~ lock_event ev) t0).
  { intros h args t0 []; repeat constructor; auto. }
  assert (Hpass : forall h (t0 : list (Event W)),
            passes htype h t0 -> Forall (fun ev => ~ lock_event ev) t0).
  { intros h t0 []; repeat constructor; auto. }
  assert (Hroute : forall routing : list (Event W),
            Forall (@routing_event W) routing ->
            Forall (fun ev => ~ lock_event ev) routing).
  { intros routing H. eapply Forall_impl; [|exact H].
    intros ev Hev. destruct ev; simpl in *; auto. }
  induction 1 as [|h hs t0 t r Hp _ IH|h hs args t0 t r Hs _ IH|h hs args t0 Hs
                 |h hs args t0 Hs|h hs args t0 e routing r Hs _ _ Hr];
    try apply Forall_app; try split; eauto;
    try (constructor; [simpl; auto|]); eauto.
Qed.

Lemma toured_no_lock_event :
  forall update users chats parsed htype gs (t : list (Event W)) r,
    toured update users chats parsed htype gs t r ->
    Forall (fun ev => ~ lock_event ev) t.
Proof.
  induction 1 as [|key group gs t1 t2 r Hs _ IH|key group gs t1 e Hs].
  - constructor.
  - constructor; [simpl; auto|]. apply Forall_app. split; [|exact IH].
    eapply scanned_no_lock_event; eassumption.
  - constructor; [simpl; auto|]. eapply scanned_no_lock_event; eassumption.
Qed.

(** X7.  The trace of one packet has one of two forms.  Either the parser
    raised, and there is nothing but at most one log line.  Or the worker's
    lock is taken once, released once, on every way out of the loops, and
    all visits, checks, calls and error routing lie between the two; after
    the release comes at most one log line, written by the outer [except]
    clause. *)
Theorem lock_brackets_dispatch : forall d lock packet w,
  (trace_of (handle_packet d lock packet) w = [] \/
   exists e, trace_of (handle_packet d lock packet) w = [EvLog e]) \/
  exists body tail,
    trace_of (handle_packet d lock packet) w
      = EvAcquire lock :: body ++ EvRelease lock :: tail /\
    Forall (fun ev => ~ lock_event ev) body /\
    (tail = [] \/ exists e, tail = [EvLog e]).
Proof.
  intros d lock [[update users] chats] w.
  pose proof (classify_trace d update users chats w) as Ht.
  unfold trace_of, handle_packet, dispatch, with_lock in *.
  unfold bind, attempt, emit, lift, log_error, ret, raise.
  destruct (classify d update users chats w) as [[[[parsed htype]|e] w1] t0];
    simpl in Ht; subst t0; simpl.
  - right.
    pose proof (for_groups_toured d update users chats parsed htype (groups d) w1)
      as Htour.
    unfold result_of, trace_of in Htour.
    destruct (for_groups d update users chats parsed htype (groups d) w1)
      as [[r w2] body].
    simpl in Htour. apply toured_no_lock_event in Htour.
    exists body.
    destruct r as [[]|e]; simpl.
    + exists []. rewrite ?app_nil_r. auto.
    + destruct (isinstance_exn e StopPropagation); simpl.
      * exists []. rewrite ?app_nil_r. auto.
      * rewrite isinstance_Exception. simpl.
        exists [EvLog e]. rewrite ?app_nil_r, <- ?app_assoc. eauto.
  - left. destruct (isinstance_exn e StopPropagation); simpl; [now left|].
    rewrite isinstance_Exception. simpl. eauto.
Qed.

(** What the worker may record for an update whose classifier step gave
    [parsed] and [htype]: checks of handlers of that class, calls of such
    handlers with the parsed object, and calls of raw-update handlers with
    [(update, users, chats)]. *)
Definition delivery (update : Update) (users chats : EntityMap)
           (parsed : option Parsed) (htype : HandlerType) (ev : Event W) : Prop :=
  match ev with
  | EvCall h _ args _ =>
      (isinstance_handler h htype = true /\ args = [AParsed parsed]) \/
      (hclass h = RawUpdateHandler /\
       args = [AUpdate update; AEntities users; AEntities chats])
  | EvCheck h _ => isinstance_handler h htype = true
  | _ => True
  end.

Lemma scanned_delivery :
  forall update users chats parsed htype hs (t : list (Event W)) r,
    scanned update users chats parsed htype hs t r ->
    Forall (delivery update users chats parsed htype) t.
Proof.
  intros update users chats parsed htype hs t r.
  assert (Hsel : forall h args (t0 : list (Event W)) mode res,
            selects update users chats parsed htype h args t0 ->
            Forall (delivery update users chats parsed htype) t0 /\
            delivery update users chats parsed htype (EvCall h mode args res)).
  { intros h args t0 mode res [H | H1 H2]; simpl.
    - split; [repeat constructor; assumption | now left].
    - split; [constructor|]. right.
      split; [now apply is_raw_update_handler_class | reflexivity]. }
  assert (Hpass : forall h (t0 : list (Event W)),
            passes htype h t0 -> Forall (delivery update users chats parsed htype) t0).
  { intros h t0 []; repeat constructor; simpl; auto. }
  assert (Hroute : forall routing : list (Event W),
            Forall (@routing_event W) routing ->
            Forall (delivery update users chats parsed htype) routing).
  { intros routing H. eapply Forall_impl; [|exact H].
    intros ev Hev. destruct ev; simpl in *; auto; contradiction. }
  induction 1 as [|h hs t0 t r Hp _ IH|h hs args t0 t r Hs _ IH|h hs args t0 Hs
                 |h hs args t0 Hs|h hs args t0 e routing r Hs _ _ Hr].
  - constructor.
  - apply Forall_app. split; [now apply (Hpass h) | exact IH].
  - destruct (Hsel _ _ _ (mode_of h) (Raise ContinuePropagation) Hs).
    apply Forall_app. split; [assumption|]. now constructor.
  - destruct (Hsel _ _ _ (mode_of h) (Ok tt) Hs).
    apply Forall_app. split; [assumption|]. now constructor.
  - destruct (Hsel _ _ _ (mode_of h) (Raise StopPropagation) Hs).
    apply Forall_app. split; [assumption|]. now constructor.
  - destruct (Hsel _ _ _ (mode_of h) (Raise e) Hs).
    apply Forall_app. split; [assumption|]. constructor; auto.
Qed.

Lemma toured_delivery :
  forall update users chats parsed htype gs (t : list (Event W)) r,
    toured update users chats parsed htype gs t r ->
    Forall (delivery update users chats parsed htype) t.
Proof.
  induction 1 as [|key group gs t1 t2 r Hs _ IH|key group gs t1 e Hs].
  - constructor.
  - constructor; [exact I|]. apply Forall_app. split; [|exact IH].
    eapply scanned_delivery; eassumption.
  - constructor; [exact I|]. eapply scanned_delivery; eassumption.
Qed.

(** X8.  A handler is checked and called with a parsed object only for updates
    of its own category: its class is the one the parser of the update's
    class returns, and the object is what that parser's parsing function
    returned.  Every other call is the call of a raw-update handler with
    [(update, users, chats)].  An [ErrorHandler] that sits in a group is
    never checked and never called as an update handler. *)
Theorem calls_match_category : forall d lock update users chats w,
  Forall (fun ev =>
            match ev with
            | EvCall h _ args _ =>
                hclass h <> ErrorHandler /\
                ((exists p parsed,
                    update_parsers_get (utype update) = Some p /\
                    fst (parse_object (client d) p update users chats w) = Ok parsed /\
                    hclass h = parser_handler_class p /\
                    args = [AParsed parsed]) \/
                 (hclass h = RawUpdateHandler /\
                  args = [AUpdate update; AEntities users; AEntities chats]))
            | EvCheck h _ =>
                hclass h <> ErrorHandler /\
                exists p, update_parsers_get (utype update) = Some p /\
                          hclass h = parser_handler_class p
            | _ => True
            end)
         (trace_of (handle_packet d lock (update, users, chats)) w).
Proof.
  intros d lock update users chats w.
  pose proof (handle_packet_shape d lock update users chats w) as Hshape.
  destruct (result_of (classify d update users chats) w) as [[parsed htype]|e] eqn:Hc.
  - destruct Hshape as (body & r & tail & -> & Htour & Htail & _).
    apply toured_delivery in Htour.
    assert (Hhtype : forall h : Handler W, isinstance_handler h htype = true ->
              exists p, update_parsers_get (utype update) = Some p /\
                        fst (parse_object (client d) p update users chats w) = Ok parsed /\
                        hclass h = parser_handler_class p).
    { intros h Hi. unfold result_of, classify in Hc.
      destruct (update_parsers_get (utype update)) as [p|].
      - exists p. split; [reflexivity|]. unfold run_parser in Hc.
        destruct (parse_object (client d) p update users chats w) as [[parsed'|x] w1];
          simpl in Hc; [|discriminate].
        injection Hc as <- <-. split; [reflexivity|].
        simpl in Hi.
        now destruct (HandlerClass_eq_dec (hclass h) (parser_handler_class p)).
      - simpl in Hc. injection Hc as <- <-. discriminate Hi. }
    assert (Hne : forall p, parser_handler_class p <> ErrorHandler)
      by (intros []; discriminate).
    constructor; [exact I|]. apply Forall_app. split.
    + eapply Forall_impl; [|exact Htour].
      intros ev Hev. destruct ev as [| | |h rb|h m a rc| |]; simpl in *; auto.
      * destruct (Hhtype h Hev) as (p & Hp & _ & Hcls).
        split; [rewrite Hcls; apply Hne | eauto].
      * destruct Hev as [[Hi ->] | [Hraw ->]].
        -- destruct (Hhtype h Hi) as (p & Hp & Hparsed & Hcls).
           split; [rewrite Hcls; apply Hne|]. left. exists p, parsed. auto.
        -- split; [rewrite Hraw; discriminate | now right].
    + constructor; [exact I|].
      eapply Forall_impl; [|exact Htail].
      intros ev Hev. destruct ev; simpl in *; auto; contradiction.
  - eapply Forall_impl; [|exact Hshape].
    intros ev Hev. destruct ev; simpl in *; auto; contradiction.
Qed.

End PacketPaths.

(** ** An error handler that raises *)
Section ErrorHandlerRaises.

Context {W : Type}.
Implicit Types (d : Dispatcher W) (w : W).

(** The exception of the first error handler call that raised, with what
    the trace records after that call. *)
Fixpoint after_error_raise (t : list (Event W)) : option (exn * list (Event W)) :=
  match t with
  | [] => None
  | EvErrorCall _ _ _ (Raise e) :: rest => Some (e, rest)
  | _ :: rest => after_error_raise rest
  end.

(** A computation in which an error handler call that raises is the last
    thing recorded, its exception being the one the computation raises. *)
Definition raise_last {A} (m : M W A) : Prop :=
  forall w,
    after_error_raise (trace_of m w) = None \/
    exists e, after_error_raise (trace_of m w) = Some (e, []) /\
              result_of m w = Raise e.

Lemma after_error_raise_app : forall t t' : list (Event W),
  after_error_raise (t ++ t') =
  match after_error_raise t with
  | Some (e, s) => Some (e, s ++ t')
  | None => after_error_raise t'
  end.
Proof.
  induction t as [|ev t IH]; intros t'; simpl; [reflexivity|].
  destruct ev as [| | | | |h m a [u|e]|]; try apply IH. reflexivity.
Qed.

Lemma after_error_raise_split : forall (t s pre post : list (Event W)) e e' h m a,
  after_error_raise t = Some (e, s) ->
  after_error_raise s = None ->
  t = pre ++ EvErrorCall h m a (Raise e') :: post ->
  e' = e /\ post = s.
Proof.
  intros t s pre; revert t; induction pre as [|ev pre IH];
    intros t post e e' h m a Hs Hnone ->; simpl in Hs.
  - injection Hs as <- <-. auto.
  - destruct ev as [| | | | |h' m' a' [u|x]|];
      try (eapply IH; [exact Hs | exact Hnone | reflexivity]).
    injection Hs as <- <-. rewrite after_error_raise_app in Hnone. simpl in Hnone.
    destruct (after_error_raise pre) as [[? ?]|]; discriminate.
Qed.

Lemma raise_last_bind : forall {A B} (m : M W A) (f : A -> M W B),
  raise_last m -> (forall a, raise_last (f a)) -> raise_last (bind m f).
Proof.
  intros A B m f Hm Hf w. specialize (Hm w).
  unfold raise_last, trace_of, result_of, bind in *.
  destruct (m w) as [[[a|x] w1] t1]; simpl in *.
  - specialize (Hf a w1). destruct (f a w1) as [[r2 w2] t2]. simpl in *.
    rewrite after_error_raise_app.
    destruct Hm as [-> | (e & _ & He)]; [exact Hf | discriminate].
  - destruct Hm as [Hn | (e & He & Hr)]; [now left|].
    right. exists e. split; [exact He | congruence].
Qed.

(** Computations that call no error handler. *)
Definition calls_no_error_handler {A} (m : M W A) : Prop :=
  forall w, after_error_raise (trace_of m w) = None.

Lemma quiet_raise_last : forall {A} (m : M W A),
  calls_no_error_handler m -> raise_last m.
Proof. intros A m H w. left. apply H. Qed.

Lemma quiet_attempt : forall {A} (m : M W A),
  calls_no_error_handler m -> calls_no_error_handler (attempt m).
Proof.
  intros A m H w. specialize (H w). unfold trace_of, attempt in *.
  now destruct (m w) as [[r w1] t1].
Qed.

Lemma invoke_error_handler_raise_last : forall (h : Handler W) coro e args,
  raise_last (invoke_error_handler h coro e args).
Proof.
  intros h coro e args w. unfold trace_of, result_of, invoke_error_handler.
  destruct (callback h (AErr e :: args) w) as [[u|x] w1]; simpl; eauto.
Qed.

Lemma route_scoped_raise_last : forall d e args todo executed,
  raise_last (route_scoped d e args todo executed).
Proof.
  intros d e args todo; induction todo as [|eh rest IH]; intros executed; simpl.
  - now apply quiet_raise_last.
  - apply raise_last_bind; [now apply quiet_raise_last|]. intros [|]; [|apply IH].
    apply raise_last_bind; [now apply quiet_raise_last|]. intros index.
    apply raise_last_bind; [now apply quiet_raise_last|]. intros flag.
    apply raise_last_bind; [apply invoke_error_handler_raise_last|]. intros _.
    apply IH.
Qed.

Lemma route_error_raise_last : forall d e args, raise_last (route_error d e args).
Proof.
  intros d e args. unfold route_error. apply raise_last_bind.
  - destruct (error_handlers d); [now apply quiet_raise_last|].
    apply route_scoped_raise_last.
  - intros executed.
    destruct (negb executed || truthy_handler (global_error_handler d)).
    + destruct (truthy_flag (global_error_handler_coro d));
        (apply raise_last_bind; [now apply quiet_raise_last|]);
        intros h; apply invoke_error_handler_raise_last.
    + now apply quiet_raise_last.
Qed.

Lemma select_args_quiet : forall update users chats parsed htype (h : Handler W),
  calls_no_error_handler (select_args update users chats parsed htype h).
Proof.
  intros update users chats parsed htype h w.
  destruct (select_args_cases update users chats parsed htype h w)
    as [(args & t0 & w1 & E & Hsel) | (t0 & w1 & E & Hpass)];
    unfold trace_of; rewrite E; simpl.
  - now destruct Hsel.
  - now destruct Hpass.
Qed.

Lemma invoke_quiet : forall (h : Handler W) args,
  calls_no_error_handler (invoke h args).
Proof.
  intros h args w. unfold trace_of, invoke.
  now destruct (callback h args w) as [r w1].
Qed.

Lemma handle_one_raise_last : forall d update users chats parsed htype h,
  raise_last (handle_one d update users chats parsed htype h).
Proof.
  intros. unfold handle_one.
  apply raise_last_bind; [apply quiet_raise_last, select_args_quiet|].
  intros [args|]; [|now apply quiet_raise_last].
  apply raise_last_bind; [apply quiet_raise_last, quiet_attempt, invoke_quiet|].
  intros [u|e]; [now apply quiet_raise_last|].
  destruct (isinstance_exn e StopPropagation); [now apply quiet_raise_last|].
  destruct (isinstance_exn e ContinuePropagation); [now apply quiet_raise_last|].
  destruct (isinstance_exn e Exception); [|now apply quiet_raise_last].
  apply raise_last_bind; [apply route_error_raise_last|].
  intros _. now apply quiet_raise_last.
Qed.

Lemma for_handlers_raise_last : forall d update users chats parsed htype hs,
  raise_last (for_handlers d update users chats parsed htype hs).
Proof.
  intros d update users chats parsed htype hs; induction hs as [|h hs IH]; simpl.
  - now apply quiet_raise_last.
  - apply raise_last_bind; [apply handle_one_raise_last|].
    intros [|]; [exact IH | now apply quiet_raise_last].
Qed.

Lemma for_groups_raise_last : forall d update users chats parsed htype gs,
  raise_last (for_groups d update users chats parsed htype gs).
Proof.
  intros d update users chats parsed htype gs;
    induction gs as [|[key group] gs IH]; simpl.
  - now apply quiet_raise_last.
  - apply raise_last_bind; [now apply quiet_raise_last|]. intros _.
    apply raise_last_bind; [apply for_handlers_raise_last|]. intros _. exact IH.
Qed.

(** X9.  Once the callback of an error handler, scoped or global, has raised,
    the dispatch of the packet is over: no other error handler is called,
    the exception that was being routed is not logged, no further handler
    and no further group is reached.  The lock is released and the outer
    [except] clause logs the exception of the error handler, or nothing
    when it is [StopPropagation]. *)
Theorem error_handler_failure_ends_dispatch :
  forall d lock packet w pre h mode args e' post,
    trace_of (handle_packet d lock packet) w
      = pre ++ EvErrorCall h mode args (Raise e') :: post ->
    post = EvRelease lock ::
           (if isinstance_exn e' StopPropagation then [] else [EvLog e']).
Proof.
  intros d lock [[update users] chats] w pre h mode args e' post Hsplit.
  pose proof (classify_trace d update users chats w) as Ht.
  unfold trace_of, handle_packet, dispatch, with_lock in *.
  unfold bind, attempt, emit, lift, log_error, ret, raise in *.
  destruct (classify d update users chats w) as [[[[parsed htype]|e] w1] t0];
    simpl in Ht; subst t0; simpl in Hsplit.
  - pose proof (for_groups_raise_last d update users chats parsed htype (groups d) w1)
      as Hlast.
    unfold result_of, trace_of in Hlast.
    destruct (for_groups d update users chats parsed htype (groups d) w1)
      as [[r w2] body].
    simpl in Hlast.
    assert (Hafter : forall tail : list (Event W),
              after_error_raise tail = None ->
              after_error_raise (EvAcquire lock :: body ++ EvRelease lock :: tail)
                <> None ->
              exists e, r = Raise e /\
                after_error_raise (EvAcquire lock :: body ++ EvRelease lock :: tail)
                  = Some (e, EvRelease lock :: tail)).
    { intros tail Htail Hsome. simpl in *. rewrite after_error_raise_app in *.
      destruct Hlast as [Hn | (e & He & Hr)].
      - rewrite Hn in Hsome. simpl in Hsome. contradiction.
      - rewrite He. exists e. auto. }
    assert (Hnone : forall (pre post : list (Event W)) h m a x,
              after_error_raise (pre ++ EvErrorCall h m a (Raise x) :: post) <> None).
    { intros. rewrite after_error_raise_app. simpl.
      destruct (after_error_raise pre0) as [[? ?]|]; discriminate. }
    destruct r as [[]|e]; simpl in Hsplit.
    + rewrite ?app_nil_r in Hsplit.
      destruct (Hafter [] eq_refl) as (e & He & _); [|discriminate].
      rewrite Hsplit. apply Hnone.
    + destruct (isinstance_exn e StopPropagation) eqn:Hstop; simpl in Hsplit.
      * rewrite ?app_nil_r in Hsplit.
        destruct (Hafter [] eq_refl) as (x & Hx & Hs); [rewrite Hsplit; apply Hnone|].
        injection Hx as <-.
        destruct (@after_error_raise_split _ _ _ _ _ _ _ _ _ Hs eq_refl Hsplit) as [-> ->].
        now rewrite Hstop.
      * rewrite isinstance_Exception in Hsplit. simpl in Hsplit.
        rewrite ?app_nil_r, <- ?app_assoc in Hsplit. simpl in Hsplit.
        destruct (Hafter [EvLog e] eq_refl) as (x & Hx & Hs);
          [rewrite Hsplit; apply Hnone|].
        injection Hx as <-.
        destruct (@after_error_raise_split _ _ _ _ _ _ _ _ _ Hs eq_refl Hsplit) as [-> ->].
        now rewrite Hstop.
  - exfalso. destruct (isinstance_exn e StopPropagation); simpl in Hsplit.
    + destruct pre; discriminate.
    + rewrite isinstance_Exception in Hsplit. simpl in Hsplit.
      destruct pre as [|ev [|ev' pre]]; discriminate.
Qed.

End ErrorHandlerRaises.

(** ** The registry under any sequence of mutations *)
Section Mutations.

Context {W : Type}.
Implicit Types (d : Dispatcher W) (h handler : Handler W).

(** One registering task run to its end, and a list of them run one after
    the other. *)
Definition run_mutation (m : Locks.Mutation (W:=W)) d : Dispatcher W :=
  snd (with_all_locks (Locks.try_block m) d).

Definition run_mutations (ms : list (Locks.Mutation (W:=W))) d : Dispatcher W :=
  fold_left (fun d m => run_mutation m d) ms d.

(** What the worker relies on when it routes an exception: the keys of the
    groups ascend; every scoped error handler is an [ErrorHandler] with a
    filter; there is a flag at the index of each of them; the global slot
    holds an [ErrorHandler] without filter, with its flag beside it. *)
Definition well_formed d : Prop :=
  StronglySorted Z.lt (map fst (groups d)) /\
  Forall (fun h => hclass h = ErrorHandler /\ errors h <> ErrorsNone)
         (error_handlers d) /\
  length (error_handlers d) <= length (error_handler_coros d) /\
  match global_error_handler d with
  | Some h => hclass h = ErrorHandler /\ errors h = ErrorsNone /\
              global_error_handler_coro d = Some (iscoroutinefunction h)
  | None => global_error_handler_coro d = None
  end.

Lemma is_error_handler_class : forall h,
  is_error_handler h = true <-> hclass h = ErrorHandler.
Proof.
  intros h. unfold is_error_handler.
  destruct (HandlerClass_eq_dec (hclass h) ErrorHandler); split; auto; discriminate.
Qed.

(** What [add_handler] does to the error handlers. *)
Lemma add_handler_error_fields : forall handler group d,
  let d' := snd (add_handler handler group d) in
  if is_error_handler handler then
    match errors handler with
    | ErrorsNone =>
        error_handlers d' = error_handlers d /\
        error_handler_coros d' = error_handler_coros d /\
        global_error_handler d' = Some handler /\
        global_error_handler_coro d' = Some (iscoroutinefunction handler)
    | _ =>
        error_handlers d' = error_handlers d ++ [handler] /\
        error_handler_coros d' = error_handler_coros d ++ [iscoroutinefunction handler] /\
        global_error_handler d' = global_error_handler d /\
        global_error_handler_coro d' = global_error_handler_coro d
    end
  else
    error_handlers d' = error_handlers d /\
    error_handler_coros d' = error_handler_coros d /\
    global_error_handler d' = global_error_handler d /\
    global_error_handler_coro d' = global_error_handler_coro d.
Proof.
  intros handler group d. cbv zeta. unfold add_handler.
  rewrite with_all_locks_state. unfold add_handler_body. cbv zeta.
  set (d1 := if dict_contains group (groups (acquire_all d)) then acquire_all d else _).
  assert (H1 : error_handlers d1 = error_handlers d /\
               error_handler_coros d1 = error_handler_coros d /\
               global_error_handler d1 = global_error_handler d /\
               global_error_handler_coro d1 = global_error_handler_coro d).
  { unfold d1. destruct (dict_contains group (groups (acquire_all d))); simpl; auto. }
  destruct H1 as (E1 & E2 & E3 & E4). clearbody d1.
  destruct (is_error_handler handler).
  - destruct (errors handler);
      match goal with
      | |- context [dict_get group (groups ?x)] =>
          destruct (dict_get group (groups x)); simpl; rewrite ?E1, ?E2, ?E3, ?E4; auto
      end.
  - destruct (dict_get group (groups d1)); simpl; auto.
Qed.

Lemma Forall_list_pop : forall {A} (P : A -> Prop) i (l : list A),
  Forall P l -> Forall P (list_pop i l).
Proof.
  intros A P i l H; revert i; induction H as [|x l Hx Hl IH]; intros [|i]; simpl; auto.
Qed.

Lemma length_list_pop : forall {A} i (l : list A),
  length (list_pop i l) <= length l.
Proof.
  intros A i l; revert i; induction l as [|x l IH]; intros [|i]; simpl; auto.
  specialize (IH i). lia.
Qed.

Lemma remove_error_loop_fields : forall error todo index d,
  let d' := snd (remove_error_loop error index todo d) in
  groups d' = groups d /\
  error_handler_coros d' = error_handler_coros d /\
  global_error_handler d' = global_error_handler d /\
  global_error_handler_coro d' = global_error_handler_coro d /\
  (error_handlers d' = error_handlers d \/
   exists i, error_handlers d' = list_pop i (error_handlers d)).
Proof.
  intros error todo; induction todo as [|err rest IH]; intros index d; simpl.
  - auto 6.
  - destruct (errors_contains error (errors err)) as [[]|e]; simpl.
    + repeat split; eauto.
    + apply IH.
    + auto 6.
Qed.

(** What [remove_error_handler] may change. *)
Lemma remove_error_handler_fields :
  forall (target : option (Handler W)) (error : option ExnClass) d,
  let d' := snd (remove_error_handler target error d) in
  groups d' = groups d /\
  error_handler_coros d' = error_handler_coros d /\
  (error_handlers d' = error_handlers d \/
   exists i, error_handlers d' = list_pop i (error_handlers d)) /\
  ((global_error_handler d' = global_error_handler d /\
    global_error_handler_coro d' = global_error_handler_coro d) \/
   (global_error_handler d' = None /\ global_error_handler_coro d' = None)).
Proof.
  intros target error d. cbv zeta. unfold remove_error_handler.
  rewrite with_all_locks_state. unfold remove_error_handler_body.
  destruct target as [h|].
  - simpl error_handlers.
    destruct (list_index h (error_handlers d)) as [i|]; simpl; eauto 8.
  - destruct error as [err|].
    + destruct (remove_error_loop_fields err (error_handlers (acquire_all d)) 0
                  (acquire_all d)) as (E1 & E2 & E3 & E4 & E5).
      simpl in *. rewrite E1, E2, E3, E4.
      split; [reflexivity | split; [reflexivity | split; [exact E5 | left; split; reflexivity]]].
    + simpl. split; [reflexivity | split; [reflexivity | split; [left; reflexivity | right; split; reflexivity]]].
Qed.

Lemma remove_handler_keys : forall handler group d,
  map fst (groups (snd (remove_handler handler group d))) = map fst (groups d).
Proof.
  intros handler group d. unfold remove_handler.
  rewrite with_all_locks_state. unfold remove_handler_body. simpl groups.
  destruct (dict_contains group (groups d)) eqn:Hc; simpl; [|reflexivity].
  destruct (dict_get group (groups d)) as [l|]; simpl; [|reflexivity].
  destruct (list_remove handler l); simpl; [|reflexivity].
  now apply dict_set_keys_present.
Qed.

Lemma run_mutation_well_formed : forall m d,
  well_formed d -> well_formed (run_mutation m d).
Proof.
  intros [handler group | handler group | target error] d (Hs & Hf & Hl & Hg);
    unfold run_mutation; simpl Locks.try_block.
  - change (with_all_locks (add_handler_body handler group) d)
      with (add_handler handler group d).
    pose proof (add_handler_error_fields handler group d) as Hadd. cbv zeta in Hadd.
    unfold well_formed. split; [now apply add_handler_ascending|].
    destruct (is_error_handler handler) eqn:Hcls.
    + apply is_error_handler_class in Hcls.
      destruct (errors handler) eqn:Herr;
        destruct Hadd as (E1 & E2 & E3 & E4); rewrite E1, E2, E3, E4.
      * auto.
      * repeat split; auto.
        -- apply Forall_app. split; [exact Hf|].
           constructor; [|constructor]. split; [exact Hcls | congruence].
        -- rewrite !length_app. simpl. lia.
      * repeat split; auto.
        -- apply Forall_app. split; [exact Hf|].
           constructor; [|constructor]. split; [exact Hcls | congruence].
        -- rewrite !length_app. simpl. lia.
    + destruct Hadd as (E1 & E2 & E3 & E4). rewrite E1, E2, E3, E4. auto.
  - change (with_all_locks (remove_handler_body handler group) d)
      with (remove_handler handler group d).
    destruct (remove_handler_error_handlers handler group d) as (E1 & E2 & E3 & E4).
    unfold well_formed. rewrite remove_handler_keys, E1, E2, E3, E4. auto.
  - change (with_all_locks (remove_error_handler_body target error) d)
      with (remove_error_handler target error d).
    destruct (remove_error_handler_fields target error d) as (E1 & E2 & E3 & E4).
    unfold well_formed. rewrite E1, E2. split; [exact Hs|].
    split; [|split].
    + destruct E3 as [-> | [i ->]]; [exact Hf | now apply Forall_list_pop].
    + destruct E3 as [-> | [i ->]]; [exact Hl|].
      pose proof (length_list_pop i (error_handlers d)). lia.
    + destruct E4 as [[-> ->] | [-> ->]]; [exact Hg | reflexivity].
Qed.

Lemma init_well_formed : forall (c : Client W), well_formed (init c).
Proof. intros c. unfold well_formed. simpl. repeat split; constructor. Qed.

Lemma run_mutations_well_formed : forall ms d,
  well_formed d -> well_formed (run_mutations ms d).
Proof.
  unfold run_mutations. induction ms as [|m ms IH]; intros d Hd; simpl.
  - exact Hd.
  - apply IH. now apply run_mutation_well_formed.
Qed.

(** X10.  Whatever handlers are added and removed, in whatever order and
    with whatever outcome, on a new dispatcher: the keys of the groups stay
    in strictly ascending order, the scoped list holds only error handlers
    that have a filter, it is never longer than the list of flags, and the
    global slot holds nothing or an error handler without filter, with its
    flag. *)
Theorem mutations_keep_registry_well_formed : forall (c : Client W) ms,
  well_formed (run_mutations ms (init c)).
Proof.
  intros c ms. apply run_mutations_well_formed. apply init_well_formed.
Qed.

End Mutations.

(** ** Dispatchers whose parser or error handler fails *)
Module Faults.

(** A client whose parsing functions raise [ValueError]. *)
Definition broken_parsers : Client unit :=
  {| no_updates := false;
     workers := 1;
     parse_object := fun _ _ _ _ w => (Raise ValueError, w) |}.

Definition unparsed : Dispatcher unit :=
  add_all [(Examples.msg_ok 1, 0%Z)] (init broken_parsers).

(** A scoped error handler for [ValueError] whose callback raises
    [KeyError], behind a message handler that raises [ValueError]. *)
Definition on_value_error_fails (id : nat) :=
  Examples.const_handler id ErrorHandler (ErrorsTuple [ValueError]) true
    (Ok true) (Raise KeyError).

Definition failing_twice : Dispatcher unit :=
  Examples.register [(Examples.msg_fails 1, 0%Z);
                     (on_value_error_fails 2, 0%Z);
                     (Examples.on_value_error 3, 0%Z);
                     (Examples.msg_ok 4, 1%Z)].

End Faults.

(** A new message whose parsing raises [ValueError]: one log entry. *)
Lemma parser_failure_drops_packet_witness :
  handle_packet Faults.unparsed 0 Examples.new_message tt
    = (Ok tt, tt, [EvLog ValueError]).
Proof.
  exact (@parser_failure_drops_packet unit Faults.unparsed 0
           {| utype := UpdateNewMessage; ubody := 7 |} [] [] tt
           message_parser ValueError tt eq_refl eq_refl).
Defined.

(** The first error handler raises [KeyError]: the second one, the other
    message handler and the next group are not reached. *)
Lemma error_handler_failure_ends_dispatch_witness :
  trace_of (handle_packet Faults.failing_twice 0 Examples.new_message) tt
    = [EvAcquire 0; EvVisit 0%Z;
       EvCheck (Examples.msg_fails 1) (Ok true);
       EvCall (Examples.msg_fails 1) Awaited
              [AParsed (Some 7)] (Raise ValueError)]
      ++ EvErrorCall (Faults.on_value_error_fails 2) Awaited
           [AErr ValueError; AParsed (Some 7)] (Raise KeyError)
      :: [EvRelease 0; EvLog KeyError]
  /\ [@EvRelease unit 0; EvLog KeyError]
     = EvRelease 0 :: (if isinstance_exn KeyError StopPropagation
                       then [] else [EvLog KeyError]).
Proof.
  assert (H : trace_of (handle_packet Faults.failing_twice 0 Examples.new_message) tt
    = [EvAcquire 0; EvVisit 0%Z;
       EvCheck (Examples.msg_fails 1) (Ok true);
       EvCall (Examples.msg_fails 1) Awaited
              [AParsed (Some 7)] (Raise ValueError)]
      ++ EvErrorCall (Faults.on_value_error_fails 2) Awaited
           [AErr ValueError; AParsed (Some 7)] (Raise KeyError)
      :: [EvRelease 0; EvLog KeyError]).
  { vm_compute. reflexivity. }
  split; [exact H|].
  exact (@error_handler_failure_ends_dispatch unit _ _ _ _ _ _ _ _ _ _ H).
Defined.

(** ** Error routing in a registry built by mutations *)
Section BuiltRegistry.

Context {W : Type}.
Implicit Types (d : Dispatcher W) (h : Handler W) (w : W).

(** The handlers passed to [add_handler], in order. *)
Definition added (ms : list (Locks.Mutation (W:=W))) : list (Handler W) :=
  flat_map (fun m => match m with
                     | Locks.AddHandler h _ => [h]
                     | _ => []
                     end) ms.

(** An [ErrorHandler] with a filter, and one without. *)
Definition is_scoped h : bool :=
  is_error_handler h && match errors h with ErrorsNone => false | _ => true end.

Definition is_global h : bool :=
  is_error_handler h && match errors h with ErrorsNone => true | _ => false end.

Definition no_error_removal (ms : list (Locks.Mutation (W:=W))) : bool :=
  forallb (fun m => match m with
                    | Locks.RemoveErrorHandler _ _ => false
                    | _ => true
                    end) ms.

Lemma find_app_first : forall {A} (f : A -> bool) l l',
  find f (l ++ l') = match find f l with Some x => Some x | None => find f l' end.
Proof.
  intros A f l l'; induction l as [|x l IH]; simpl; [reflexivity|].
  now destruct (f x).
Qed.

Lemma run_mutation_error_fields : forall m d,
  no_error_removal [m] = true ->
  error_handlers (run_mutation m d)
    = error_handlers d ++ filter is_scoped (added [m]) /\
  error_handler_coros (run_mutation m d)
    = error_handler_coros d ++ map (@iscoroutinefunction W) (filter is_scoped (added [m])) /\
  global_error_handler (run_mutation m d)
    = match find is_global (added [m]) with
      | Some g => Some g
      | None => global_error_handler d
      end /\
  global_error_handler_coro (run_mutation m d)
    = match find is_global (added [m]) with
      | Some g => Some (iscoroutinefunction g)
      | None => global_error_handler_coro d
      end.
Proof.
  intros [handler group | handler group | target error] d Hno;
    [| |discriminate]; unfold run_mutation; simpl Locks.try_block.
  - change (with_all_locks (add_handler_body handler group) d)
      with (add_handler handler group d).
    pose proof (add_handler_error_fields handler group d) as Hadd. cbv zeta in Hadd.
    simpl added. unfold is_scoped, is_global. simpl.
    destruct (is_error_handler handler); simpl.
    + destruct (errors handler); simpl; destruct Hadd as (E1 & E2 & E3 & E4);
        rewrite E1, E2, E3, E4, ?app_nil_r; auto.
    + destruct Hadd as (E1 & E2 & E3 & E4). rewrite E1, E2, E3, E4, !app_nil_r. auto.
  - change (with_all_locks (remove_handler_body handler group) d)
      with (remove_handler handler group d).
    destruct (remove_handler_error_handlers handler group d) as (E1 & E2 & E3 & E4).
    simpl. rewrite E1, E2, E3, E4, !app_nil_r. auto.
Qed.

Lemma run_mutations_error_fields : forall ms d,
  no_error_removal ms = true ->
  error_handlers (run_mutations ms d)
    = error_handlers d ++ filter is_scoped (added ms) /\
  error_handler_coros (run_mutations ms d)
    = error_handler_coros d
      ++ map (@iscoroutinefunction W) (filter is_scoped (added ms)) /\
  global_error_handler (run_mutations ms d)
    = match find is_global (rev (added ms)) with
      | Some g => Some g
      | None => global_error_handler d
      end /\
  global_error_handler_coro (run_mutations ms d)
    = match find is_global (rev (added ms)) with
      | Some g => Some (iscoroutinefunction g)
      | None => global_error_handler_coro d
      end.
Proof.
  induction ms as [|m ms IH]; intros d Hno.
  - simpl. rewrite !app_nil_r. auto.
  - simpl in Hno. apply andb_true_iff in Hno. destruct Hno as [Hm Hms].
    destruct (run_mutation_error_fields m d) as (E1 & E2 & E3 & E4).
    { simpl. now rewrite Hm. }
    destruct (IH (run_mutation m d) Hms) as (F1 & F2 & F3 & F4).
    change (run_mutations (m :: ms) d) with (run_mutations ms (run_mutation m d)).
    rewrite F1, F2, F3, F4, E1, E2, E3, E4.
    assert (Ha : added (m :: ms) = added [m] ++ added ms) by (destruct m; reflexivity).
    rewrite Ha. rewrite filter_app, map_app, !app_assoc, rev_app_distr, find_app_first.
    assert (Hrev : find is_global (rev (added [m])) = find is_global (added [m])).
    { destruct m; reflexivity. }
    rewrite Hrev.
    destruct (find is_global (rev (added ms))); auto.
Qed.

(** X11.  As long as [remove_error_handler] is not used, the error registry is a
    function of the handlers passed to [add_handler], whatever their groups
    and whatever [remove_handler] did in between: the scoped list is the
    error handlers with a filter, in the order of their registration, the
    flags are those of these handlers position by position, and the global
    slot holds the last error handler without filter, with its flag. *)
Theorem error_registry_of_added : forall (c : Client W) ms,
  no_error_removal ms = true ->
  let d := run_mutations ms (init c) in
  error_handlers d = filter is_scoped (added ms) /\
  error_handler_coros d = map (@iscoroutinefunction W) (error_handlers d) /\
  global_error_handler d = find is_global (rev (added ms)) /\
  global_error_handler_coro d
    = option_map (@iscoroutinefunction W) (global_error_handler d).
Proof.
  intros c ms Hno d.
  destruct (run_mutations_error_fields ms (init c) Hno) as (E1 & E2 & E3 & E4).
  fold d in E1, E2, E3, E4. simpl in E1, E2, E3, E4.
  rewrite E1, E2, E3, E4.
  destruct (find is_global (rev (added ms))); auto.
Qed.

Lemma error_calls_app : forall (t t' : list (Event W)),
  error_calls (t ++ t') = error_calls t ++ error_calls t'.
Proof.
  induction t as [|ev t IH]; intros t'; simpl; [reflexivity|].
  destruct ev; simpl; rewrite ?IH; reflexivity.
Qed.








End BuiltRegistry.

(** ** Adding a handler and removing it again *)
Section RoundTrip.

Context {W : Type}.
Implicit Types (d : Dispatcher W) (h handler : Handler W).

Lemma handler_eqb_refl : forall h, handler_eqb h h = true.
Proof. intros h. unfold handler_eqb. apply Nat.eqb_refl. Qed.

(** [remove] after [append] takes the first occurrence, which is the
    appended one only when there was none before. *)
Lemma list_remove_app_last : forall h (l : list (Handler W)),
  list_remove h (l ++ [h])
    = Some (match list_remove h l with
            | Some l' => l' ++ [h]
            | None => l
            end).
Proof.
  intros h l; induction l as [|y l IH]; simpl.
  - now rewrite handler_eqb_refl.
  - destruct (handler_eqb y h); [reflexivity|].
    rewrite IH. simpl. now destruct (list_remove h l).
Qed.

Lemma remove_handler_found : forall handler group d l l',
  dict_get group (groups d) = Some l ->
  list_remove handler l = Some l' ->
  fst (remove_handler handler group d) = Ok tt /\
  groups (snd (remove_handler handler group d)) = dict_set group l' (groups d).
Proof.
  intros handler group d l l' Hget Hrem. unfold remove_handler.
  rewrite with_all_locks_result, with_all_locks_state.
  unfold remove_handler_body. simpl groups.
  destruct (dict_contains group (groups d)) eqn:Hc.
  - simpl. rewrite Hget, Hrem. simpl. auto.
  - apply dict_contains_false_get in Hc. congruence.
Qed.

(** X13.  [remove_handler(h, g)] right after [add_handler(h, g)] always succeeds,
    and leaves the other groups as they were before the two calls.  It is
    the inverse of the addition only in part: the list of the group is the
    old one when the handler was not in it, and has lost its earlier
    occurrence, keeping the new one at the end, when it was; the key [g]
    stays in [groups], with an empty list when the group was new; and what
    the addition of an error handler wrote to the error registry stays. *)
Theorem add_then_remove_handler : forall h g d,
  let d1 := snd (add_handler h g d) in
  let r := remove_handler h g d1 in
  fst r = Ok tt /\
  dict_get g (groups (snd r))
    = Some (match list_remove h (group_of g (groups d)) with
            | Some l' => l' ++ [h]
            | None => group_of g (groups d)
            end) /\
  (forall k, k <> g -> dict_get k (groups (snd r)) = dict_get k (groups d)) /\
  map fst (groups (snd r)) = map fst (groups d1) /\
  In g (map fst (groups (snd r))) /\
  same_error_handlers d1 (snd r).
Proof.
  intros h g d d1 r.
  assert (Hget : dict_get g (groups d1) = Some (group_of g (groups d) ++ [h])).
  { unfold d1. now rewrite add_handler_get, Z.eqb_refl. }
  pose proof (list_remove_app_last h (group_of g (groups d))) as Hrem.
  destruct (remove_handler_found h g d1 Hget Hrem) as [Hok Hgroups].
  fold r in Hok, Hgroups.
  assert (Hkeys : map fst (groups (snd r)) = map fst (groups d1)).
  { unfold r. apply remove_handler_keys. }
  split; [exact Hok|]. split; [|split; [|split; [exact Hkeys|split]]].
  - rewrite Hgroups. apply dict_get_set_same.
  - intros k Hne. rewrite Hgroups, dict_get_set_other by exact Hne.
    unfold d1. rewrite add_handler_get.
    destruct (Z.eqb_spec k g); [contradiction | reflexivity].
  - rewrite Hkeys. unfold d1. apply add_handler_keys. now left.
  - unfold r. apply remove_handler_error_handlers.
Qed.

End RoundTrip.

(** ** What [remove_error_handler] can do *)
Section RemoveErrorPaths.

Context {W : Type}.
Implicit Types (d : Dispatcher W).

Lemma length_list_pop_in_range : forall {A} i (l : list A),
  i < length l -> S (length (list_pop i l)) = length l.
Proof.
  intros A i l; revert i; induction l as [|x l IH]; intros [|i] H; simpl in *;
    try lia.
  rewrite IH; lia.
Qed.

(** [index] finds a position that holds the very object. *)
Lemma list_index_nth : forall (h : Handler W) l i,
  list_index h l = Some i ->
  exists eh, nth_error l i = Some eh /\ hid eh = hid h.
Proof.
  intros h l; induction l as [|y l IH]; intros i Hi; simpl in Hi; [discriminate|].
  destruct (handler_eqb y h) eqn:E.
  - injection Hi as <-. exists y. split; [reflexivity|].
    unfold handler_eqb in E. now apply Nat.eqb_eq in E.
  - destruct (list_index h l) as [j|]; [|discriminate].
    injection Hi as <-. destruct (IH j eq_refl) as (eh & Hn & Hid).
    exists eh. auto.
Qed.

(** The loop over the scoped handlers ends without a change, normally or
    with [TypeError], or it has popped one handler whose tuple holds the
    class and raised [AttributeError]. *)
Lemma remove_error_loop_outcome : forall error todo index d,
  (forall j eh, nth_error todo j = Some eh ->
                nth_error (error_handlers d) (index + j) = Some eh) ->
  let r := remove_error_loop error index todo d in
  ((fst r = Ok tt \/ fst r = Raise TypeError) /\ snd r = d) \/
  (fst r = Raise AttributeError /\
   exists i eh, nth_error (error_handlers d) i = Some eh /\
                errors_contains error (errors eh) = Ok true /\
                snd r = set_error_handlers d (list_pop i (error_handlers d))).
Proof.
  intros error todo; induction todo as [|err rest IH]; intros index d Hpos; simpl.
  - left. auto.
  - destruct (errors_contains error (errors err)) as [[]|e] eqn:E; simpl.
    + right. split; [reflexivity|]. exists index, err. split; [|auto].
      specialize (Hpos 0 err eq_refl). now rewrite Nat.add_0_r in Hpos.
    + apply IH. intros j eh Hj. specialize (Hpos (S j) eh Hj).
      now rewrite Nat.add_succ_r in Hpos.
    + left. split; [|reflexivity]. right.
      unfold errors_contains in E. destruct (errors err); congruence.
Qed.

(** X14.  [remove_error_handler] never touches the groups or the flags.  When it
    returns normally, the scoped list is what it was.  When the scoped list
    has changed, exactly one handler has been popped from it and the call
    has raised [AttributeError].  A call that names a handler never returns
    normally; a call that names an exception class pops only a handler
    whose [errors] tuple holds that very class. *)
Theorem remove_error_handler_outcomes :
  forall (target : option (Handler W)) (error : option ExnClass) d,
  let r := remove_error_handler target error d in
  groups (snd r) = groups d /\
  error_handler_coros (snd r) = error_handler_coros d /\
  (fst r = Ok tt -> error_handlers (snd r) = error_handlers d) /\
  (error_handlers (snd r) <> error_handlers d ->
   fst r = Raise AttributeError /\
   S (length (error_handlers (snd r))) = length (error_handlers d) /\
   exists i eh, nth_error (error_handlers d) i = Some eh /\
                error_handlers (snd r) = list_pop i (error_handlers d) /\
                match target, error with
                | Some h, _ => hid eh = hid h
                | None, Some cls => errors_contains cls (errors eh) = Ok true
                | None, None => False
                end) /\
  (target <> None -> fst r <> Ok tt).
Proof.
  intros target error d r. unfold r, remove_error_handler.
  rewrite with_all_locks_result, with_all_locks_state.
  unfold remove_error_handler_body.
  assert (Ha : error_handlers (acquire_all d) = error_handlers d) by reflexivity.
  destruct target as [h|].
  - rewrite !Ha.
    destruct (list_index h (error_handlers d)) as [i|] eqn:Hi; simpl.
    + destruct (list_index_nth h (error_handlers d) Hi) as (eh & Hn & Hid).
      split; [reflexivity|]. split; [reflexivity|].
      split; [discriminate|]. split; [|intros _; discriminate].
      intros _. split; [reflexivity|]. split.
      * apply length_list_pop_in_range. apply nth_error_Some. congruence.
      * exists i, eh. auto.
    + split; [reflexivity|]. split; [reflexivity|].
      split; [discriminate|]. split; [|intros _; discriminate].
      intros Hc. now contradiction Hc.
  - destruct error as [cls|].
    + destruct (remove_error_loop_outcome cls (error_handlers (acquire_all d)) 0
                  (acquire_all d)) as [[Hr Hs] | (Hr & i & eh & Hn & Hc & Hs)].
      { intros j eh Hj. exact Hj. }
      * rewrite Hs. simpl.
        split; [reflexivity|]. split; [reflexivity|].
        split; [reflexivity|]. split; [|intros Hc; now contradiction Hc].
        intros Hc. now contradiction Hc.
      * rewrite Hs, Hr. simpl in *.
        split; [reflexivity|]. split; [reflexivity|].
        split; [discriminate|]. split; [|intros Hc'; now contradiction Hc'].
        intros _. split; [reflexivity|]. split.
        -- apply length_list_pop_in_range. apply nth_error_Some. congruence.
        -- exists i, eh. auto.
    + simpl.
      split; [reflexivity|]. split; [reflexivity|].
      split; [reflexivity|]. split; [|intros Hc; now contradiction Hc].
      intros Hc. now contradiction Hc.
Qed.

End RemoveErrorPaths.

(** ** The registering tasks cannot block one another *)
Module LockProgress.

Import Locks.

Section Progress.

Context {W : Type}.
Implicit Types (s : System (W:=W)).

(** The [finally] loop of a registering task does not run past the list
    of locks. *)
Definition releasing_bounded s : Prop :=
  forall j m k, nth_error (tasks s) j = Some (m, Releasing k) ->
                k <= length (lock_state s).

(** Where a registering task stands after its next move, [n] being the
    number of locks. *)
Definition next_pc (n : nat) (pc : TaskPC) : TaskPC :=
  match pc with
  | Acquiring k => if k <? n then Acquiring (S k) else Releasing 0
  | Releasing k => if k <? n then Releasing (S k) else Finished
  | Finished => Finished
  end.

(** The task at position [j] makes its next move. *)
Definition task_moves s (j : nat) : Prop :=
  exists m pc d',
    nth_error (tasks s) j = Some (m, pc) /\ pc <> Finished /\
    step s {| disp := d';
              worker_pcs := worker_pcs s;
              tasks := set_nth j (m, next_pc (length (lock_state s)) pc) (tasks s) |}.

Lemma step_lock_count : forall s s',
  step s s' -> length (lock_state s') = length (lock_state s).
Proof.
  intros s s' Hstep.
  destruct Hstep; unfold lock_state, with_lock_flag; simpl;
    rewrite ?LockFacts.length_set_nth, ?LockFacts.try_block_locks; reflexivity.
Qed.

Lemma step_releasing_bounded : forall s s',
  releasing_bounded s -> step s s' -> releasing_bounded s'.
Proof.
  intros s s' H Hstep j0 m0 k0 Hj0. rewrite (step_lock_count Hstep).
  destruct Hstep as [i Hi Hfree | i Hi | i Hi | m | j m k Hj Hfree | j m Hj
                    | j m k Hj Hk | j m Hj]; simpl in Hj0;
    try (eapply H; eassumption).
  - apply LockFacts.nth_error_snoc in Hj0. destruct Hj0 as [Hj0 | Hj0].
    + eapply H; eassumption.
    + discriminate.
  - rewrite LockFacts.nth_error_set_nth in Hj0.
    destruct (Nat.eqb_spec j0 j); [|eapply H; eassumption].
    rewrite Hj in Hj0. discriminate.
  - rewrite LockFacts.nth_error_set_nth in Hj0.
    destruct (Nat.eqb_spec j0 j); [|eapply H; eassumption].
    rewrite Hj in Hj0. simpl in Hj0. injection Hj0 as _ <-. lia.
  - rewrite LockFacts.nth_error_set_nth in Hj0.
    destruct (Nat.eqb_spec j0 j); [|eapply H; eassumption].
    rewrite Hj in Hj0. simpl in Hj0. injection Hj0 as _ <-. lia.
  - rewrite LockFacts.nth_error_set_nth in Hj0.
    destruct (Nat.eqb_spec j0 j); [|eapply H; eassumption].
    rewrite Hj in Hj0. discriminate.
Qed.

Lemma reachable_releasing_bounded : forall s, reachable s -> releasing_bounded s.
Proof.
  induction 1 as [s (_ & _ & _ & Hnew) | s s' _ IH Hstep].
  - intros j m k Hj. apply nth_error_In in Hj.
    rewrite Forall_forall in Hnew. apply Hnew in Hj. discriminate.
  - eapply step_releasing_bounded; eassumption.
Qed.

(** A task at [acquire()] moves, or another task does, or a worker is
    inside its block. *)
Lemma waiting_task_moves : forall s,
  LockFacts.invariant s -> releasing_bounded s ->
  forall fuel j m k,
    length (lock_state s) - k <= fuel ->
    nth_error (tasks s) j = Some (m, Acquiring k) ->
    (exists i, nth_error (worker_pcs s) i = Some Dispatching) \/
    exists j', task_moves s j'.
Proof.
  intros s Hinv Hrel. pose proof Hinv as (HL & HA & HK & HB & HC & HD & HE).
  induction fuel as [|fuel IH]; intros j m k Hfuel Hj;
    pose proof (HK j m k Hj) as Hle.
  - right. exists j, m, (Acquiring k), (snd (try_block m (disp s))).
    split; [exact Hj|]. split; [discriminate|].
    assert (k = length (lock_state s)) by lia. subst k.
    simpl. rewrite Nat.ltb_irrefl. now apply task_mutates.
  - destruct (Nat.eq_dec k (length (lock_state s))) as [-> | Hne].
    + right. exists j, m, (Acquiring (length (lock_state s))),
                   (snd (try_block m (disp s))).
      split; [exact Hj|]. split; [discriminate|].
      simpl. rewrite Nat.ltb_irrefl. now apply task_mutates.
    + assert (Hlt : k < length (lock_state s)) by lia.
      destruct (nth_error (lock_state s) k) as [[|]|] eqn:Hk.
      * destruct (HE k Hk) as [Hw | (j' & m' & pc' & Hj' & Hh)].
        -- left. eauto.
        -- destruct pc' as [k' | k' |]; simpl in Hh.
           ++ apply (IH j' m' k'); [lia | exact Hj'].
           ++ right. exists j', m', (Releasing k'), (with_lock_flag s k' false).
              split; [exact Hj'|]. split; [discriminate|].
              simpl. assert (Hb : (k' <? length (lock_state s)) = true)
                by (apply Nat.ltb_lt; lia).
              rewrite Hb. apply task_releases; [exact Hj' | lia].
           ++ contradiction.
      * right. exists j, m, (Acquiring k), (with_lock_flag s k true).
        split; [exact Hj|]. split; [discriminate|].
        simpl. assert (Hb : (k <? length (lock_state s)) = true)
          by (now apply Nat.ltb_lt).
        rewrite Hb. now apply task_acquires.
      * apply nth_error_None in Hk. lia.
Qed.

(** X16.  However the workers and the registering tasks have been interleaved
    since [start()], as long as a registering task is not finished and no
    worker is inside its [async with lock] block, one of the registering
    tasks can make its next move: the tasks, which all take the locks in
    the order of [locks_list], never block one another. *)
Theorem registering_tasks_never_deadlock : forall s,
  reachable s ->
  (exists j m pc, nth_error (tasks s) j = Some (m, pc) /\ pc <> Finished) ->
  Forall (fun pc => pc <> Dispatching) (worker_pcs s) ->
  exists j, task_moves s j.
Proof.
  intros s Hreach (j & m & pc & Hj & Hpc) Hidle.
  pose proof (LockFacts.reachable_invariant Hreach) as Hinv.
  pose proof (reachable_releasing_bounded Hreach) as Hrel.
  assert (Hno : ~ exists i, nth_error (worker_pcs s) i = Some Dispatching).
  { intros [i Hi]. apply nth_error_In in Hi.
    rewrite Forall_forall in Hidle. now apply Hidle in Hi. }
  destruct pc as [k | k |].
  - destruct (@waiting_task_moves s Hinv Hrel (length (lock_state s)) j m k)
      as [Hw | Hm]; [lia | exact Hj | contradiction | exact Hm].
  - pose proof (Hrel j m k Hj) as Hle.
    exists j, m, (Releasing k).
    destruct (Nat.eq_dec k (length (lock_state s))) as [-> | Hne].
    + exists (disp s). split; [exact Hj|]. split; [discriminate|].
      simpl. rewrite Nat.ltb_irrefl. now apply task_finishes.
    + exists (with_lock_flag s k false). split; [exact Hj|]. split; [discriminate|].
      simpl. assert (Hb : (k <? length (lock_state s)) = true)
        by (apply Nat.ltb_lt; lia).
      rewrite Hb. apply task_releases; [exact Hj | lia].
  - contradiction.
Qed.

End Progress.

End LockProgress.

(** ** The registry and the locks at work *)
Module Built.

(** Two error handlers and a message handler are added, the scoped error
    handler is removed from its group, a second global handler is added. *)
Definition script : list (Locks.Mutation (W:=unit)) :=
  [Locks.AddHandler (Examples.on_value_error 1) 0%Z;
   Locks.AddHandler (Examples.on_any_error 2) 0%Z;
   Locks.AddHandler (Examples.msg_ok 3) 1%Z;
   Locks.RemoveHandler (Examples.on_value_error 1) 0%Z;
   Locks.AddHandler (Examples.on_any_error 4) 2%Z].

Definition registry : Dispatcher unit :=
  run_mutations script (init Examples.one_worker).

End Built.

(** The scoped handler is still registered after [remove_handler], and the
    global slot holds the handler added last. *)
Lemma error_registry_of_added_witness :
  error_handlers Built.registry = [Examples.on_value_error 1] /\
  error_handler_coros Built.registry
    = map (@iscoroutinefunction unit) (error_handlers Built.registry) /\
  global_error_handler Built.registry = Some (Examples.on_any_error 4) /\
  global_error_handler_coro Built.registry
    = option_map (@iscoroutinefunction unit) (global_error_handler Built.registry).
Proof.
  exact (@error_registry_of_added unit Examples.one_worker Built.script eq_refl).
Defined.


(** One worker outside its block and one registering task just created:
    the task takes the lock. *)
Lemma registering_tasks_never_deadlock_witness :
  exists j, LockProgress.task_moves Examples.created j.
Proof.
  assert (Hreach : Locks.reachable Examples.created).
  { apply (Locks.reachable_step (s := Examples.booted)).
    - apply Locks.reachable_initial.
      apply (LockFacts.started_initial
               (Examples.register [(Examples.msg_ok 1, 0%Z)])).
      constructor.
    - exact (Locks.task_created Examples.booted
               (Locks.AddHandler (Examples.msg_ok 2) 0%Z)). }
  apply (LockProgress.registering_tasks_never_deadlock Hreach).
  - exists 0, (Locks.AddHandler (Examples.msg_ok 2) 0%Z), (Locks.Acquiring 0).
    split; [reflexivity | discriminate].
  - vm_compute. constructor; [discriminate | constructor].
Defined.

(** ** [stop()] and the packets still queued *)
Section Drain.

Context {W : Type}.
Implicit Types (d : Dispatcher W) (w : W).









End Drain.

(** ** Removing by exception class, with a handler for one class *)
Section SingleClass.

Context {W : Type}.
Implicit Types (d : Dispatcher W).

Lemma remove_error_loop_type_error : forall cls pre (eh : Handler W) c post index d,
  Forall (fun x => errors_contains cls (errors x) = Ok false) pre ->
  errors eh = ErrorsClass c ->
  remove_error_loop cls index (pre ++ eh :: post) d = (Raise TypeError, d).
Proof.
  intros cls pre eh c post index d Hpre Heh; revert index.
  induction Hpre as [|x pre Hx _ IH]; intros index; simpl.
  - now rewrite Heh.
  - rewrite Hx. apply IH.
Qed.

(** X15.  [ErrorHandler.__init__] turns a list of classes into a tuple and keeps
    a single class as it is; [remove_error_handler(error=cls)] tests
    [cls in err.errors].  So when the first scoped handler that is not
    passed over was registered for one class, be it [cls] itself, the call
    raises [TypeError] and removes nothing, not even a handler further down
    the list whose tuple holds [cls]. *)
Theorem remove_by_error_fails_on_single_class :
  forall d cls pre (eh : Handler W) c post,
    error_handlers d = pre ++ eh :: post ->
    Forall (fun x => errors_contains cls (errors x) = Ok false) pre ->
    errors eh = ErrorsClass c ->
    fst (remove_error_handler None (Some cls) d) = Raise TypeError /\
    Locks.registry (snd (remove_error_handler None (Some cls) d)) = Locks.registry d.
Proof.
  intros d cls pre eh c post Hd Hpre Heh. unfold remove_error_handler.
  rewrite with_all_locks_result, with_all_locks_state.
  unfold remove_error_handler_body.
  assert (Ha : error_handlers (acquire_all d) = error_handlers d) by reflexivity.
  rewrite Ha, Hd.
  rewrite (@remove_error_loop_type_error cls pre eh c post 0 (acquire_all d) Hpre Heh).
  split; reflexivity.
Qed.

End SingleClass.

(** ** Dispatchers with a single-class handler, and with packets queued *)
Module Pending.

(** An error handler registered for the class [ValueError], not a tuple. *)
Definition on_value_error_class (id : nat) :=
  Examples.const_handler id ErrorHandler (ErrorsClass ValueError) true (Ok true) (Ok tt).

Definition guarded : Dispatcher unit :=
  Examples.register [(Examples.on_value_error 1, 0%Z);
                     (on_value_error_class 2, 0%Z);
                     (Examples.on_value_error 3, 0%Z)].


End Pending.

(** [remove_error_handler(error=KeyError)] passes the first handler, whose
    tuple does not hold [KeyError], and fails on the second. *)
Lemma remove_by_error_fails_on_single_class_witness :
  fst (remove_error_handler None (Some KeyError) Pending.guarded) = Raise TypeError /\
  Locks.registry (snd (remove_error_handler None (Some KeyError) Pending.guarded))
    = Locks.registry Pending.guarded.
Proof.
  apply (@remove_by_error_fails_on_single_class unit Pending.guarded KeyError
           [Examples.on_value_error 1] (Pending.on_value_error_class 2) ValueError
           [Examples.on_value_error 3]).
  - reflexivity.
  - constructor; [reflexivity | constructor].
  - reflexivity.
Defined.

